(** * referenceManager: normalisation, RIS parsing, deduplication, Scopus export

    A shallow embedding of [referenceManager.py].  Python strings are lists of
    Unicode code points, dictionaries are finite maps, the loops of the source
    are folds over explicit state.  The functions of the Python runtime that
    depend on the Unicode character database ([str.lower],
    [unicodedata.normalize], [unicodedata.category], the regex classes [\w]
    and [\d]) are an interface, [Unicode]; every general theorem holds for any
    implementation of it, and a small concrete table ([latin]) is used to
    evaluate the functions on examples. *)

From Stdlib Require Import String Ascii DecimalString DecimalN.
From stdpp Require Import gmap list sorting.

(** ** Python strings *)

(** A [str] is the sequence of its code points. *)
Abbreviation str := (list N).

(** [py "abc"] is the literal ['abc'] (ASCII literals only). *)
Definition py (s : string) : str :=
  (fun a => N_of_ascii a) <$> list_ascii_of_string s.

(** The Unicode character database, as far as the program consults it. *)
Class Unicode := {
  lower : str -> str;      (* str.lower() *)
  nfd : str -> str;        (* unicodedata.normalize('NFD', s) *)
  is_Mn : N -> bool;       (* unicodedata.category(c) == 'Mn' *)
  is_word : N -> bool;     (* regex class \w *)
  is_digit : N -> bool;    (* regex class \d *)
}.

(** [str.isspace] on one code point; also the regex class [\s]. *)
Definition in_range (lo hi c : N) : bool := ((lo <=? c) && (c <=? hi))%N.

Definition is_space (c : N) : bool :=
  in_range 9 13 c || in_range 28 32 c
  || bool_decide (c ∈ [133; 160; 5760; 8232; 8233; 8239; 8287; 12288]%N)
  || in_range 8192 8202 c.

Fixpoint drop_while {A} (f : A -> bool) (l : list A) : list A :=
  match l with
  | [] => []
  | x :: l' => if f x then drop_while f l' else l
  end.

Fixpoint take_while {A} (f : A -> bool) (l : list A) : list A :=
  match l with
  | [] => []
  | x :: l' => if f x then x :: take_while f l' else []
  end.

Definition lstrip_by (f : N -> bool) (s : str) : str := drop_while f s.
Definition rstrip_by (f : N -> bool) (s : str) : str :=
  rev (drop_while f (rev s)).

(** [s.strip()] *)
Definition strip (s : str) : str := rstrip_by is_space (lstrip_by is_space s).

(** [s.startswith(p)] *)
Fixpoint startswith (s p : str) : bool :=
  match p, s with
  | [], _ => true
  | _ :: _, [] => false
  | b :: p', a :: s' => (a =? b)%N && startswith s' p'
  end.

(** [s.split(sep)] for a one-character separator: never empty. *)
Fixpoint split_on (sep : N) (s : str) : list str :=
  match s with
  | [] => [[]]
  | c :: s' =>
      if (c =? sep)%N then [] :: split_on sep s'
      else match split_on sep s' with
           | [] => [[c]]
           | w :: ws => (c :: w) :: ws
           end
  end.

(** [sep.join(parts)] *)
Fixpoint join (sep : str) (parts : list str) : str :=
  match parts with
  | [] => []
  | [p] => p
  | p :: ps => p ++ sep ++ join sep ps
  end.

(** ** Field values and records *)

(** A field value is a string, or the float NaN that pandas puts in an empty
    cell of a CSV file. *)
Inductive value := VStr (s : str) | VNaN.

Global Instance value_eq_dec : EqDecision value.
Proof. solve_decision. Defined.

(** Python truthiness of a value: NaN is a non-zero float. *)
Definition truthy (v : value) : bool :=
  match v with
  | VStr [] => false
  | VStr _ => true
  | VNaN => true
  end.

(** [pd.isna(v)] *)
Definition isna (v : value) : bool :=
  match v with VNaN => true | VStr _ => false end.

(** [str(v)] *)
Definition to_str (v : value) : str :=
  match v with VStr s => s | VNaN => py "nan" end.

(** [a or b] *)
Definition por (a b : value) : value := if truthy a then a else b.

(** A record is a dict from field names to values. *)
Abbreviation record := (gmap (list N) value).

(** [rec.get(key, default)] *)
Definition get (rec : record) (key : string) (default : value) : value :=
  match rec !! py key with Some v => v | None => default end.

(** ** Helper functions of the source *)

Section Helpers.
Context `{Unicode}.

Definition doi_prefixes : list str :=
  [py "https://dx.doi.org/"; py "https://doi.org/"; py "http://doi.org/";
   py "http://dx.doi.org/"; py "doi:"; py "doi.org/"].

(** One iteration of the prefix loop of [normalize_doi]. *)
Definition strip_prefix_step (doi prefix : str) : str :=
  if startswith (lower doi) (lower prefix) then drop (length prefix) doi
  else doi.

Definition normalize_doi (doi : value) : str :=
  if negb (truthy doi) || isna doi then []
  else
    let doi := strip (to_str doi) in
    let doi := fold_left strip_prefix_step doi_prefixes doi in
    strip doi.

(** [re.sub(r'\s+', ' ', s)]: [in_run] says that the previous character was
    white space, already replaced. *)
Fixpoint collapse_spaces (in_run : bool) (s : str) : str :=
  match s with
  | [] => []
  | c :: s' =>
      if is_space c
      then (if in_run then collapse_spaces true s'
            else 32%N :: collapse_spaces true s')
      else c :: collapse_spaces false s'
  end.

Definition normalize_text (text : value) : str :=
  if negb (truthy text) || isna text then []
  else
    let text := strip (lower (to_str text)) in
    let text := nfd text in
    let text := filter (fun c => is_Mn c = false) text in
    let text :=
      (fun c => if negb (is_word c) && negb (is_space c) then 32%N else c)
        <$> text in
    let text := collapse_spaces false text in
    strip text.

(** The first-author key of [create_fingerprint]. *)
Definition first_author_key (authors : value) : str :=
  if truthy authors then
    let first_author :=
      lower (strip (hd [] (split_on 44 (hd [] (split_on 59 (to_str authors))))))
    in filter (fun c => is_word c = true) first_author
  else [].

Definition create_fingerprint (record : record) : str :=
  let title := normalize_text (get record "title" (VStr [])) in
  let authors := por (get record "authors" (VStr [])) (VStr []) in
  let first_author := first_author_key authors in
  let year := take 4 (to_str (por (get record "year" (VStr [])) (VStr []))) in
  take 50 title ++ py "|" ++ first_author ++ py "|" ++ year.

(** ** Deduplication *)

(** [rec.get(key)] used as a condition: an absent key gives [None]. *)
Definition has_field (rec : record) (key : string) : bool :=
  match rec !! py key with Some v => truthy v | None => false end.

(** The condition of the generator in the [sum] of the score. *)
Definition counted (v : value) : bool :=
  truthy v && negb (isna v) && bool_decide (strip (to_str v) <> []).

Definition score (rec : record) : nat :=
  (length (filter (fun v => counted v = true) (map_to_list rec).*2)
   + (if has_field rec "doi" then 10 else 0)
   + (if has_field rec "pmid" then 5 else 0)
   + (if has_field rec "abstract" then 5 else 0))%nat.

(** [records_scored]: the triples (score, idx, rec). *)
Definition records_scored (records : list record) : list (nat * nat * record) :=
  imap (fun idx rec => (score rec, idx, rec)) records.

(** The sort key [(x[0], x[1])] and the order of Python tuples on it. *)
Definition sort_key (x : nat * nat * record) : nat * nat := (x.1.1, x.1.2).

Definition key_ltb (a b : nat * nat) : bool :=
  (a.1 <? b.1)%nat || ((a.1 =? b.1)%nat && (a.2 <? b.2)%nat).

(** [sorted(l, key=sort_key, reverse=True)]: a stable sort into descending
    key order (an element stays behind the elements of the same key that
    precede it in the input). *)
Fixpoint insert_desc (x : nat * nat * record) (l : list (nat * nat * record))
    : list (nat * nat * record) :=
  match l with
  | [] => [x]
  | y :: l' =>
      if key_ltb (sort_key x) (sort_key y) then y :: insert_desc x l'
      else x :: l
  end.

Definition sorted_desc (l : list (nat * nat * record)) : list (nat * nat * record) :=
  foldr insert_desc [] l.

Definition records_sorted (records : list record) : list record :=
  (fun x => x.2) <$> sorted_desc (records_scored records).

(** The variables of the loop of [deduplicate_records]. *)
Record dedup_state := DedupState {
  unique_records : list record;
  seen_dois : gset (list N);
  seen_fingerprints : gset (list N);
  duplicates_by_doi : nat;
  duplicates_by_fingerprint : nat;
  duplicate_details : list (str * value);
}.

Definition dedup_init : dedup_state := DedupState [] ∅ ∅ 0 0 [].

Definition source_db (record : record) : value :=
  get record "_source_db" (VStr (py "Unknown")).

(** The check by DOI: the new value of [is_duplicate] and of the state. *)
Definition check_doi (st : dedup_state) (record : record) : bool * dedup_state :=
  let doi := normalize_doi (get record "doi" (VStr [])) in
  if bool_decide (doi <> []) then
    if bool_decide (lower doi ∈ seen_dois st) then
      (true,
       DedupState (unique_records st) (seen_dois st) (seen_fingerprints st)
         (duplicates_by_doi st + 1) (duplicates_by_fingerprint st)
         (duplicate_details st ++ [(py "DOI", source_db record)]))
    else
      (false,
       DedupState (unique_records st) (seen_dois st ∪ {[lower doi]})
         (seen_fingerprints st) (duplicates_by_doi st)
         (duplicates_by_fingerprint st) (duplicate_details st))
  else (false, st).

(** The check by fingerprint, run when the record is no DOI duplicate. *)
Definition check_fingerprint (st : dedup_state) (record : record)
    : bool * dedup_state :=
  let fingerprint := create_fingerprint record in
  if bool_decide (fingerprint <> []) && (10 <? length fingerprint)%nat then
    if bool_decide (fingerprint ∈ seen_fingerprints st) then
      (true,
       DedupState (unique_records st) (seen_dois st) (seen_fingerprints st)
         (duplicates_by_doi st) (duplicates_by_fingerprint st + 1)
         (duplicate_details st ++ [(py "Fingerprint", source_db record)]))
    else
      (false,
       DedupState (unique_records st) (seen_dois st)
         (seen_fingerprints st ∪ {[fingerprint]}) (duplicates_by_doi st)
         (duplicates_by_fingerprint st) (duplicate_details st))
  else (false, st).

(** One iteration of the loop over [records_sorted]. *)
Definition dedup_step (st : dedup_state) (record : record) : dedup_state :=
  let '(is_duplicate, st) := check_doi st record in
  let '(is_duplicate, st) :=
    if negb is_duplicate then check_fingerprint st record
    else (is_duplicate, st) in
  if negb is_duplicate then
    DedupState (unique_records st ++ [record]) (seen_dois st)
      (seen_fingerprints st) (duplicates_by_doi st)
      (duplicates_by_fingerprint st) (duplicate_details st)
  else st.

(** The loop, from any list in place of [records_sorted]. *)
Definition dedup_loop (sorted : list record) : dedup_state :=
  fold_left dedup_step sorted dedup_init.

Definition dedup_result (st : dedup_state)
    : list record * nat * nat * list (str * value) :=
  (unique_records st, duplicates_by_doi st, duplicates_by_fingerprint st,
   duplicate_details st).

Definition deduplicate_records (records : list record)
    : list record * nat * nat * list (str * value) :=
  dedup_result (dedup_loop (records_sorted records)).

(** ** The RIS parser *)

(** [ris_mapping]: the table from tags to canonical fields. *)
Definition ris_mapping : list (str * str) :=
  (fun kv : string * string => (py kv.1, py kv.2)) <$>
  [("TI", "title"); ("T1", "title");
   ("AU", "authors"); ("A1", "authors"); ("A2", "authors");
   ("PY", "year"); ("Y1", "year"); ("DA", "year"); ("Y2", "year");
   ("AB", "abstract"); ("N2", "abstract");
   ("DO", "doi"); ("DOI", "doi");
   ("JF", "source"); ("T2", "source"); ("JO", "source_abbrev");
   ("JA", "source_abbrev"); ("J2", "source_abbrev");
   ("VL", "volume"); ("IS", "issue"); ("SP", "page_start"); ("EP", "page_end");
   ("SN", "issn");
   ("PB", "publisher");
   ("LA", "language");
   ("KW", "keywords");
   ("UR", "url"); ("L2", "url");
   ("AN", "accession"); ("ID", "id");
   ("DB", "database"); ("DP", "database");
   ("AD", "affiliations");
   ("N1", "notes");
   ("TY", "doc_type"); ("M3", "doc_type_alt");
   ("PM", "pmid"); ("C2", "pmid");
   ("C7", "article_number")]%string.

(** [ris_mapping.get(tag)] *)
Definition ris_field (tag : str) : option str :=
  snd <$> List.find (fun kv => bool_decide (kv.1 = tag)) ris_mapping.

(** [tag == 'XY'] and [tag in ['XY', ...]] *)
Definition tag_is (tag : str) (name : string) : bool :=
  bool_decide (tag = py name).

Definition tag_in (tag : str) (names : list string) : bool :=
  existsb (tag_is tag) names.

(** [re.match] of a line against the tag pattern (an upper-case letter, an
    upper-case letter or digit, white space, a hyphen, optional white space,
    the value): the two groups.  The white space after the tag is matched
    greedily and must be followed by the hyphen; the second group is what
    follows the white space after the hyphen. *)
Definition match_ris_line (line : str) : option (str * str) :=
  match line with
  | a :: b :: rest =>
      if in_range 65 90 a && (in_range 65 90 b || in_range 48 57 b) then
        match take_while is_space rest, drop_while is_space rest with
        | _ :: _, c :: rest' =>
            if (c =? 45)%N then Some ([a; b], drop_while is_space rest')
            else None
        | _, _ => None
        end
      else None
  | _ => None
  end.

(** The head of the loop body: the line without its trailing CR and LF is
    matched, and the value is stripped. *)
Definition ris_line (line : str) : option (str * str) :=
  let line := rstrip_by (fun c => (c =? 13)%N || (c =? 10)%N) line in
  match match_ris_line line with
  | Some (tag, value) => Some (tag, strip value)
  | None => None
  end.

(** [re.search(r'(19|20)\d{2}', s)]: the first match, if any. *)
Fixpoint search_year (s : str) : option str :=
  match s with
  | [] => None
  | a :: s' =>
      match s' with
      | b :: c :: d :: _ =>
          if (((a =? 49)%N && (b =? 57)%N) || ((a =? 50)%N && (b =? 48)%N))
             && is_digit c && is_digit d
          then Some [a; b; c; d]
          else search_year s'
      | _ => None
      end
  end.

(** [re.sub(r'\s*\(ISSN\)', '', s)]: [skip] counts the characters of the
    current match that are still to be dropped. *)
Fixpoint remove_issn_marks (skip : nat) (s : str) : str :=
  match s with
  | [] => []
  | c :: s' =>
      match skip with
      | S k => remove_issn_marks k s'
      | O =>
          if startswith (drop_while is_space s) (py "(ISSN)")
          then remove_issn_marks (length (take_while is_space s) + 5) s'
          else c :: remove_issn_marks 0 s'
      end
  end.

(** [current_record]: the string-valued keys, and the three list-valued
    working keys ['AU_list'], ['KW_list'], ['AD_list'], absent ([None]) until
    the first value is appended. *)
Record ris_record := RisRecord {
  fields : record;
  AU_list : option (list str);
  KW_list : option (list str);
  AD_list : option (list str);
}.

Definition ris_empty : ris_record := RisRecord ∅ None None None.

(** Truthiness of the dict [current_record]. *)
Definition ris_nonempty (cur : ris_record) : bool :=
  negb (bool_decide (fields cur = ∅))
  || bool_decide (is_Some (AU_list cur))
  || bool_decide (is_Some (KW_list cur))
  || bool_decide (is_Some (AD_list cur)).

Definition list_append (l : option (list str)) (v : str) : option (list str) :=
  Some (default [] l ++ [v]).

(** [current_record[key] = sep.join(current_record.pop(list_key))] *)
Definition join_into (key : string) (sep : string) (l : option (list str))
    (f : record) : record :=
  match l with
  | Some parts => <[py key := VStr (join (py sep) parts)]> f
  | None => f
  end.

(** The record that [save_record] appends. *)
Definition finish_record (cur : ris_record) : record :=
  join_into "affiliations" "; " (AD_list cur)
    (join_into "keywords" "; " (KW_list cur)
       (join_into "authors" ";" (AU_list cur) (fields cur))).

Definition save_record (records : list record) (cur : ris_record)
    : list record :=
  if ris_nonempty cur then records ++ [finish_record cur] else records.

Definition set_field (cur : ris_record) (key : str) (v : str) : ris_record :=
  RisRecord (<[key := VStr v]> (fields cur)) (AU_list cur) (KW_list cur)
    (AD_list cur).

(** The body of the loop for a line that matched, with its tag and its
    stripped value. *)
Definition ris_tag_step (st : list record * ris_record) (tag value : str)
    : list record * ris_record :=
  let '(records, cur) := st in
  if tag_is tag "ER" then (save_record records cur, ris_empty)
  else if tag_is tag "TY" then
    (save_record records cur,
     RisRecord {[py "doc_type" := VStr value]} None None None)
  else
    match ris_field tag with
    | None => st
    | Some field =>
        if bool_decide (field = []) then st
        else if tag_in tag ["AU"; "A1"; "A2"]%string then
          (records,
           RisRecord (fields cur) (list_append (AU_list cur) value)
             (KW_list cur) (AD_list cur))
        else if tag_is tag "KW" then
          (records,
           RisRecord (fields cur) (AU_list cur)
             (list_append (KW_list cur) value) (AD_list cur))
        else if tag_is tag "AD" then
          (records,
           RisRecord (fields cur) (AU_list cur) (KW_list cur)
             (list_append (AD_list cur) value))
        else if tag_in tag ["PY"; "Y1"; "DA"; "Y2"]%string then
          match search_year value with
          | Some year => (records, set_field cur (py "year") year)
          | None => st
          end
        else if tag_is tag "SN" then
          let issn_clean := strip (remove_issn_marks 0 value) in
          if negb (has_field (fields cur) "issn") then
            (records,
             set_field cur (py "issn")
               (if bool_decide (issn_clean <> [])
                then take_while (fun c => negb (is_space c)) issn_clean
                else []))
          else st
        else
          if bool_decide (fields cur !! field = None)
          then (records, set_field cur field value)
          else st
    end.

(** One iteration of the loop over the lines. *)
Definition ris_step (st : list record * ris_record) (line : str)
    : list record * ris_record :=
  match ris_line line with
  | Some (tag, value) => ris_tag_step st tag value
  | None => st
  end.

(** The loop and the final [save_record], on the lines of the content. *)
Definition parse_ris_lines (lines : list str) : list record :=
  let '(records, cur) := fold_left ris_step lines ([], ris_empty) in
  save_record records cur.

Definition parse_ris_content (content : str) : list record :=
  parse_ris_lines (split_on 10 content).

(** ** Conversion to the Scopus layout *)

(** [str(n)] for a natural number. *)
Definition decimal (n : N) : str := py (NilEmpty.string_of_uint (N.to_uint n)).

(** [c in s] *)
Definition contains (c : N) (s : str) : bool := existsb (N.eqb c) s.

Definition empty_str : value := VStr [].

(** The page fields: the combined range is split when no start is given. *)
Definition page_fields (rec : record) : value * value :=
  let page_start := por (get rec "page_start" empty_str) empty_str in
  let page_end := por (get rec "page_end" empty_str) empty_str in
  let pages := por (get rec "pages" empty_str) empty_str in
  if truthy pages && negb (truthy page_start) then
    if contains 45 (to_str pages) then
      let parts := split_on 45 (to_str pages) in
      (VStr (strip (hd [] parts)),
       if (1 <? length parts)%nat then VStr (strip (List.last parts []))
       else empty_str)
    else (VStr (to_str pages), page_end)
  else (page_start, page_end).

Definition year_int (year : value) : value :=
  if truthy year then
    match search_year (to_str year) with
    | Some y => VStr y
    | None => empty_str
    end
  else empty_str.

(** [scopus_rec]: the dict built for the record at position [i], its keys in
    the order of the dict display. *)
Definition scopus_rec (i : nat) (rec : record) : list (str * value) :=
  let field key := por (get rec key empty_str) empty_str in
  let authors := field "authors"%string in
  let doi := VStr (normalize_doi (field "doi"%string)) in
  let language :=
    por (get rec "language" (VStr (py "English"))) (VStr (py "English")) in
  let '(page_start, page_end) := page_fields rec in
  (fun kv : string * value => (py kv.1, kv.2)) <$>
  [("Authors", authors);
   ("Author full names", authors);
   ("Author(s) ID", empty_str);
   ("Title", field "title");
   ("Year", year_int (field "year"));
   ("Source title", field "source");
   ("Volume", field "volume");
   ("Issue", field "issue");
   ("Art. No.", empty_str);
   ("Page start", page_start);
   ("Page end", page_end);
   ("Cited by", VStr (py "0"));
   ("DOI", doi);
   ("Link", field "url");
   ("Affiliations", field "affiliations");
   ("Authors with affiliations", empty_str);
   ("Abstract", field "abstract");
   ("Author Keywords", field "keywords");
   ("Index Keywords", empty_str);
   ("Molecular Sequence Numbers", empty_str);
   ("Chemicals/CAS", empty_str);
   ("Tradenames", empty_str);
   ("Manufacturers", empty_str);
   ("Funding Details", empty_str);
   ("Funding Texts", empty_str);
   ("References", empty_str);
   ("Correspondence Address", empty_str);
   ("Editors", empty_str);
   ("Publisher", field "publisher");
   ("Sponsors", empty_str);
   ("Conference name", empty_str);
   ("Conference date", empty_str);
   ("Conference location", empty_str);
   ("Conference code", empty_str);
   ("ISSN", field "issn");
   ("ISBN", empty_str);
   ("CODEN", empty_str);
   ("PubMed ID", field "pmid");
   ("Language of Original Document", language);
   ("Abbreviated Source Title", field "source_abbrev");
   ("Document Type", VStr (py "Article"));
   ("Publication Stage", VStr (py "Final"));
   ("Open Access", empty_str);
   ("Source", VStr (py "Scopus"));
   ("EID", VStr (py "2-s2.0-" ++ decimal (85000000000 + N.of_nat i)))]%string.

Definition column_order : list str :=
  py <$>
  ["Authors"; "Author full names"; "Author(s) ID"; "Title"; "Year";
   "Source title"; "Volume"; "Issue"; "Art. No."; "Page start"; "Page end";
   "Cited by"; "DOI"; "Link"; "Affiliations"; "Authors with affiliations";
   "Abstract"; "Author Keywords"; "Index Keywords";
   "Molecular Sequence Numbers"; "Chemicals/CAS"; "Tradenames";
   "Manufacturers"; "Funding Details"; "Funding Texts"; "References";
   "Correspondence Address"; "Editors"; "Publisher"; "Sponsors";
   "Conference name"; "Conference date"; "Conference location";
   "Conference code"; "ISSN"; "ISBN"; "CODEN"; "PubMed ID";
   "Language of Original Document"; "Abbreviated Source Title";
   "Document Type"; "Publication Stage"; "Open Access"; "Source"; "EID"]%string.

(** A pandas data frame: the column labels and the rows, each row with one
    cell per column. *)
Record DataFrame := MkDataFrame {
  columns : list str;
  rows : list (list value);
}.

(** [d.get(key)] on a dict kept as a list of items. *)
Definition item (d : list (str * value)) (key : str) : option value :=
  snd <$> List.find (fun kv => bool_decide (kv.1 = key)) d.

Definition add_key (acc : list str) (key : str) : list str :=
  if bool_decide (key ∈ acc) then acc else acc ++ [key].

(** [pd.DataFrame(dicts)]: the columns are the keys in the order of their
    first appearance; a key that a dict lacks gives NaN. *)
Definition DataFrame_of_dicts (dicts : list (list (str * value))) : DataFrame :=
  let cols := fold_left (fun acc d => fold_left add_key (d.*1) acc) dicts [] in
  MkDataFrame cols
    ((fun d => (fun c => default VNaN (item d c)) <$> cols) <$> dicts).

(** [df[order]]: a label that is no column raises [KeyError] ([None]). *)
Definition select_columns (df : DataFrame) (order : list str)
    : option DataFrame :=
  if forallb (fun c => bool_decide (c ∈ columns df)) order then
    Some (MkDataFrame order
            ((fun row =>
                (fun c => default VNaN (item (zip (columns df) row) c))
                  <$> order) <$> rows df))
  else None.

Definition convert_to_scopus_format (records : list record)
    : option DataFrame :=
  let scopus_records := imap scopus_rec records in
  let df := DataFrame_of_dicts scopus_records in
  select_columns df column_order.

End Helpers.

(** ** A concrete character table

    [latin] implements [Unicode] on Basic Latin, the Latin-1 Supplement and the
    combining diacritical marks U+0300..U+036F, where it agrees with the
    Unicode character database; other code points are left as they are.  It
    serves to run the functions on examples. *)

Module Latin.

Definition is_upper (c : N) : bool :=
  in_range 65 90 c || (in_range 192 222 c && negb (c =? 215)%N).

Definition lower_char (c : N) : N := if is_upper c then (c + 32)%N else c.

(** Canonical decomposition of the precomposed letters of Latin-1. *)
Definition decompose (c : N) : list N :=
  let grave := 768%N in let acute := 769%N in let circ := 770%N in
  let tilde := 771%N in let diaer := 776%N in let ring := 778%N in
  let cedil := 807%N in
  let on (base : N) (marks : list N) (first : N) : list N :=
    match marks !! N.to_nat (c - first) with
    | Some m => [base; m]
    | None => [c]
    end in
  if in_range 192 197 c then on 65%N [grave; acute; circ; tilde; diaer; ring] 192%N
  else if (c =? 199)%N then [67; cedil]%N
  else if in_range 200 203 c then on 69%N [grave; acute; circ; diaer] 200%N
  else if in_range 204 207 c then on 73%N [grave; acute; circ; diaer] 204%N
  else if (c =? 209)%N then [78; tilde]%N
  else if in_range 210 214 c then on 79%N [grave; acute; circ; tilde; diaer] 210%N
  else if in_range 217 220 c then on 85%N [grave; acute; circ; diaer] 217%N
  else if (c =? 221)%N then [89; acute]%N
  else if in_range 224 229 c then on 97%N [grave; acute; circ; tilde; diaer; ring] 224%N
  else if (c =? 231)%N then [99; cedil]%N
  else if in_range 232 235 c then on 101%N [grave; acute; circ; diaer] 232%N
  else if in_range 236 239 c then on 105%N [grave; acute; circ; diaer] 236%N
  else if (c =? 241)%N then [110; tilde]%N
  else if in_range 242 246 c then on 111%N [grave; acute; circ; tilde; diaer] 242%N
  else if in_range 249 252 c then on 117%N [grave; acute; circ; diaer] 249%N
  else if (c =? 253)%N then [121; acute]%N
  else if (c =? 255)%N then [121; diaer]%N
  else [c].

Definition is_ascii_digit (c : N) : bool := in_range 48 57 c.

Definition is_alnum (c : N) : bool :=
  is_ascii_digit c || in_range 65 90 c || in_range 97 122 c
  || bool_decide (c ∈ [170; 178; 179; 181; 185; 186; 188; 189; 190]%N)
  || (in_range 192 255 c && negb (c =? 215)%N && negb (c =? 247)%N).

Definition latin : Unicode := {|
  lower := fun s => lower_char <$> s;
  nfd := fun s => s ≫= decompose;
  is_Mn := in_range 768 879;
  is_word := fun c => is_alnum c || (c =? 95)%N;
  is_digit := is_ascii_digit;
|}.

End Latin.

(** ** The source classifier *)

(** [sub in s] for strings. *)
Fixpoint has_substring (s sub : str) : bool :=
  startswith s sub
  || match s with
     | [] => false
     | _ :: s' => has_substring s' sub
     end.

Section Classifier.
Context `{Unicode}.

Definition detect_source_db (filename : str) : str :=
  let filename_lower := lower filename in
  if has_substring filename_lower (py "embase") then py "Embase"
  else if has_substring filename_lower (py "medline")
          || has_substring filename_lower (py "pubmed") then py "MEDLINE"
  else if has_substring filename_lower (py "cochrane")
          || has_substring filename_lower (py "central") then py "Cochrane"
  else if has_substring filename_lower (py "scopus") then py "Scopus"
  else if has_substring filename_lower (py "wos")
          || has_substring filename_lower (py "web of science")
          || has_substring filename_lower (py "savedrecs")
       then py "Web of Science"
  else py "Unknown".

(** The source label of a file in [main]: the manual assignment when there
    is one, the detected label otherwise. *)
Definition file_source (manual_mappings : gmap (list N) (list N))
    (filename : str) : str :=
  match manual_mappings !! filename with
  | Some db => db
  | None => detect_source_db filename
  end.

End Classifier.

(** The loop of [main] over the files, each given with its source label and
    the records parsed from it: every record gets the label under
    ['_source_db'], and the records of all files are put end to end. *)
Definition tag_records (source_db : str) (records : list record)
    : list record :=
  (fun rec => <[py "_source_db" := VStr source_db]> rec) <$> records.

Definition all_records (files : list (str * list record)) : list record :=
  files ≫= (fun file => tag_records file.1 file.2).

(** ** Sample data *)

Module Sample.

(** The dict with the given string items. *)
Definition mk_record (items : list (string * string)) : record :=
  list_to_map ((fun kv : string * string => (py kv.1, VStr (py kv.2))) <$> items).

(** Two records with the same DOI and the same score. *)
Definition first_copy : record :=
  mk_record [("title", "First copy"); ("doi", "10.1/x")]%string.
Definition second_copy : record :=
  mk_record [("title", "Second copy"); ("doi", "https://doi.org/10.1/x")]%string.

(** A record with another DOI. *)
Definition other_work : record :=
  mk_record [("title", "Another work"); ("doi", "10.2/y")]%string.

(** Two records without DOI, title, authors and year. *)
Definition blank_a : record := mk_record [("_source_db", "Embase")]%string.
Definition blank_b : record := mk_record [("_source_db", "MEDLINE")]%string.

(** One work without DOI, exported twice: the title differs in case, in the
    accent (U+00E9) and in punctuation, the author in case. *)
Definition cafe_a : record :=
  <[py "title" := VStr (py "Caf" ++ [233%N] ++ py " Study: a Review")]>
    (mk_record [("authors", "SMITH, J"); ("year", "2020")]%string).
Definition cafe_b : record :=
  mk_record [("title", "CAFE study a review"); ("authors", "Smith, J.");
             ("year", "2020a")]%string.

(** One work without DOI, exported twice: the author is written with and
    without the diaeresis (U+00FC). *)
Definition muller_a : record :=
  <[py "authors" := VStr (py "M" ++ [252%N] ++ py "ller, J")]>
    (mk_record [("title", "Deep learning for things"); ("year", "2020")]%string).
Definition muller_b : record :=
  mk_record [("title", "Deep learning for things"); ("authors", "Muller, J");
             ("year", "2020")]%string.

(** The lines of RIS files. *)
Definition ris_scenario : list str :=
  py <$> ["TY  - JOUR"; "TI  - A Study"; "AU  - Smith, J"; "PY  - 2020";
          "DO  - https://doi.org/10.1/x"; "ER  - "]%string.

Definition ris_two_titles : list str :=
  py <$> ["TY  - JOUR"; "TI  - A Study"; "T1  - Another title"]%string.

Definition ris_two_years : list str :=
  py <$> ["TY  - JOUR"; "PY  - 2020"; "Y2  - 2021/03/01"; "ER  - "]%string.

Definition ris_two_issns : list str :=
  py <$> ["TY  - JOUR"; "SN  - "; "SN  - 1234-5678 (ISSN)"; "ER  - "]%string.

End Sample.

(** ** Predicates used in the statements *)

(** A list is trimmed on the left when it does not begin with an [f]. *)
Definition trimmed_l {A} (f : A -> bool) (l : list A) : Prop :=
  match l with [] => True | x :: _ => f x = false end.

(** A string is trimmed when neither end is white space. *)
Definition trimmed (s : str) : Prop :=
  trimmed_l is_space s /\ trimmed_l is_space (rev s).

(** The order of two scored records by sort key: [key_ge] is "not below",
    [key_gt] is "strictly above" (a higher score, or the same score and a
    larger index). *)
Definition key_ge (a b : nat * nat * record) : Prop :=
  key_ltb (sort_key a) (sort_key b) = false.

Definition key_gt (a b : nat * nat * record) : Prop :=
  (b.1.1 < a.1.1)%nat \/ (a.1.1 = b.1.1 /\ (b.1.2 < a.1.2)%nat).

(** A line that closes a record: its tag is ER or TY. *)
Definition is_boundary (line : str) : bool :=
  match ris_line line with
  | Some (tag, _) => tag_is tag "ER" || tag_is tag "TY"
  | None => false
  end.

Definition has_tag (name : string) (line : str) : Prop :=
  exists value, ris_line line = Some (py name, value).

(** The value of the first of [lines] whose tag maps to [field]. *)
Fixpoint first_occurrence (field : str) (lines : list str) : option str :=
  match lines with
  | [] => None
  | line :: rest =>
      match ris_line line with
      | Some (tag, value) =>
          if bool_decide (ris_field tag = Some field) then Some value
          else first_occurrence field rest
      | None => first_occurrence field rest
      end
  end.

(** The ISSN that an SN line offers: the first token of the cleaned value. *)
Definition issn_token (value : str) : str :=
  let issn_clean := strip (remove_issn_marks 0 value) in
  if bool_decide (issn_clean <> [])
  then take_while (fun c => negb (is_space c)) issn_clean
  else [].

(** The token of the first SN line of [lines] that offers a non-empty one. *)
Fixpoint first_issn (lines : list str) : option str :=
  match lines with
  | [] => None
  | line :: rest =>
      match ris_line line with
      | Some (tag, value) =>
          if tag_is tag "SN" && bool_decide (issn_token value <> [])
          then Some (issn_token value)
          else first_issn rest
      | None => first_issn rest
      end
  end.

(** The fields that the last branch of the loop body sets, and [doc_type]:
    all but the joined lists, the year and the ISSN. *)
Definition plain_field (field : str) : Prop :=
  field ∉ (py <$> ["authors"; "keywords"; "affiliations"; "year"; "issn"]%string).

Global Instance plain_field_dec field : Decision (plain_field field).
Proof. unfold plain_field. apply _. Defined.

(** The tags that the loop body treats before its last branch. *)
Definition special_tag (tag : str) : bool :=
  tag_in tag ["AU"; "A1"; "A2"; "KW"; "AD"; "PY"; "Y1"; "DA"; "Y2"; "SN"]%string.

(** [lines] are the lines of one record, after the lines [pre]: a TY line and
    the lines up to the next boundary, or, at the start of the input or after
    an ER line, the lines up to the next boundary. *)
Definition record_lines (pre lines : list str) : Prop :=
  (exists ty block,
     lines = ty :: block /\ has_tag "TY" ty
     /\ Forall (fun l => is_boundary l = false) block)
  \/ ((pre = [] \/ exists pre' er, pre = pre' ++ [er] /\ has_tag "ER" er)
      /\ Forall (fun l => is_boundary l = false) lines).

(** What follows the lines of a record: the end of the input or a boundary. *)
Definition record_closed (rest : list str) : Prop :=
  rest = [] \/ exists c post, rest = c :: post /\ is_boundary c = true.

Section Signals.
Context `{Unicode}.

(** The normalised DOI of a record, as the loop computes it. *)
Definition record_doi (r : record) : str :=
  normalize_doi (get r "doi" (VStr [])).

(** A fingerprint takes part in the matching when it is longer than 10. *)
Definition matchable (fingerprint : str) : bool :=
  (10 <? length fingerprint)%nat.

(** A record with neither a usable DOI nor a usable fingerprint. *)
Definition no_signal (r : record) : Prop :=
  record_doi r = [] /\ matchable (create_fingerprint r) = false.

Global Instance no_signal_dec r : Decision (no_signal r).
Proof. unfold no_signal. apply _. Defined.

(** The sets of seen keys after the two checks on a record that is not
    flagged. *)
Definition register_doi (seen : gset (list N)) (r : record) : gset (list N) :=
  if bool_decide (record_doi r <> []) then seen ∪ {[lower (record_doi r)]}
  else seen.

Definition register_fingerprint (seen : gset (list N)) (r : record)
    : gset (list N) :=
  if matchable (create_fingerprint r) then seen ∪ {[create_fingerprint r]}
  else seen.

(** The record is flagged by DOI, or by fingerprint, in state [st]. *)
Definition doi_hit (st : dedup_state) (r : record) : Prop :=
  record_doi r <> [] /\ lower (record_doi r) ∈ seen_dois st.

Definition fingerprint_hit (st : dedup_state) (r : record) : Prop :=
  matchable (create_fingerprint r) = true
  /\ create_fingerprint r ∈ seen_fingerprints st.

(** The invariant behind the DOI claims: the key of every survivor with a
    DOI is in [seen_dois], and the keys of two such survivors differ. *)
Definition doi_invariant (st : dedup_state) : Prop :=
  (forall r, r ∈ unique_records st -> record_doi r <> [] ->
             lower (record_doi r) ∈ seen_dois st)
  /\ (forall i j ri rj, (i < j)%nat ->
        unique_records st !! i = Some ri -> unique_records st !! j = Some rj ->
        record_doi ri <> [] -> record_doi rj <> [] ->
        lower (record_doi ri) <> lower (record_doi rj)).

(** An arrangement of the scored records that a descending sort by key may
    return: the same triples, none below its successor. *)
Definition descending_arrangement (records : list record)
    (l : list (nat * nat * record)) : Prop :=
  l ≡ₚ records_scored records /\ Sorted key_ge l.

End Signals.

(** Equality of strings up to the case of the ASCII letters. *)
Definition ascii_lower_char (c : N) : N :=
  if in_range 65 90 c then (c + 32)%N else c.

Definition ascii_case_eq (x y : str) : Prop :=
  ascii_lower_char <$> x = ascii_lower_char <$> y.

(** ** More sample data *)

Module MoreSample.

Definition padded_doi : str := py "  10.1000/xyz123 ".

Definition ris_with_noise : list str :=
  py <$> ["TY  - JOUR"; "this line has no tag"; "TI  - A Study"]%string.

Definition ris_three_authors : list str :=
  py <$> ["TY  - JOUR"; "AU  - Smith, J"; "TI  - A Study"; "A1  - Doe, K";
          "KW  - trials"; "A2  - Roe, L"]%string.

Definition with_year_text : record :=
  Sample.mk_record [("title", "A Study"); ("year", "Jan 2020")]%string.

Definition with_page_range : record :=
  Sample.mk_record [("title", "A Study"); ("pages", "12 - 34")]%string.

End MoreSample.

(** ** Further predicates *)

(** [sub] occurs in [s]. *)
Definition occurs_in (sub s : str) : Prop :=
  exists before after, s = before ++ sub ++ after.

(** The keywords that [detect_source_db] looks for. *)
Definition source_keywords : list str :=
  py <$> ["embase"; "medline"; "pubmed"; "cochrane"; "central"; "scopus";
          "wos"; "web of science"; "savedrecs"]%string.

Definition source_labels : list str :=
  py <$> ["Embase"; "MEDLINE"; "Cochrane"; "Scopus"; "Web of Science";
          "Unknown"]%string.

(** No two neighbours of [s] are both the plain space. *)
Fixpoint no_double_space (s : str) : Prop :=
  match s with
  | [] => True
  | a :: s' =>
      match s' with
      | [] => True
      | b :: _ => ~ (a = 32%N /\ b = 32%N)
      end /\ no_double_space s'
  end.

(** The values of the lines whose tag is one of [names], in order. *)
Fixpoint tag_values (names : list string) (lines : list str) : list str :=
  match lines with
  | [] => []
  | line :: rest =>
      match ris_line line with
      | Some (tag, value) =>
          if tag_in tag names then value :: tag_values names rest
          else tag_values names rest
      | None => tag_values names rest
      end
  end.

(** A line that the loop of the parser passes over: it does not match the
    tag pattern, or its tag is neither a boundary nor in the tag table. *)
Definition inert_line (line : str) : Prop :=
  match ris_line line with
  | None => True
  | Some (tag, _) =>
      tag_is tag "ER" = false /\ tag_is tag "TY" = false
      /\ ris_field tag = None
  end.

(** A working list after further values were appended to it. *)
Definition extend_list (l : option (list str)) (values : list str)
    : option (list str) :=
  match values with
  | [] => l
  | _ :: _ => Some (default [] l ++ values)
  end.

(** The multi-valued fields: their tags, their key and their separator. *)
Definition list_fields : list (list string * string * string) :=
  [(["AU"; "A1"; "A2"], "authors", ";");
   (["KW"], "keywords", "; ");
   (["AD"], "affiliations", "; ")]%string.

(** A record without the keys that the matching reads. *)
Definition blank_record (r : record) : Prop :=
  r !! py "doi" = None /\ r !! py "title" = None
  /\ r !! py "authors" = None /\ r !! py "year" = None.

Section FurtherPredicates.
Context `{Unicode}.

(** A year as the year pattern matches it: 19 or 20 and two digits. *)
Definition is_year_token (y : str) : Prop :=
  exists c d,
    (y = [49; 57; c; d]%N \/ y = [50; 48; c; d]%N)
    /\ is_digit c = true /\ is_digit d = true.

(** The year of a record, when it has one, is a year token. *)
Definition year_well_formed (r : record) : Prop :=
  forall v, r !! py "year" = Some v -> exists y, v = VStr y /\ is_year_token y.

(** Two records that the loop would match with each other: by the
    lower-cased DOI, or by a matchable fingerprint. *)
Definition clash (a b : record) : Prop :=
  (record_doi a <> [] /\ record_doi b <> []
   /\ lower (record_doi a) = lower (record_doi b))
  \/ (matchable (create_fingerprint a) = true
      /\ create_fingerprint a = create_fingerprint b).

(** No two records of the list match with each other. *)
Fixpoint clash_free (l : list record) : Prop :=
  match l with
  | [] => True
  | r :: l' => Forall (fun r' => ~ clash r r') l' /\ clash_free l'
  end.

(** The invariant of the loop on the seen keys: they are the keys of the
    survivors, and no two survivors match. *)
Definition seen_invariant (st : dedup_state) : Prop :=
  (forall r, r ∈ unique_records st -> matchable (create_fingerprint r) = true ->
             create_fingerprint r ∈ seen_fingerprints st)
  /\ (forall i j ri rj, (i < j)%nat ->
        unique_records st !! i = Some ri -> unique_records st !! j = Some rj ->
        matchable (create_fingerprint ri) = true ->
        create_fingerprint ri <> create_fingerprint rj).

End FurtherPredicates.

(** ** The same work, up to case, diacritics and punctuation *)

(** The code points of the reference table: Basic Latin, the Latin-1
    Supplement, and the combining diacritical marks. *)
Definition table_char (c : N) : bool := (c <? 256)%N || in_range 768 879 c.

Definition in_table (s : str) : Prop := Forall (fun c => table_char c = true) s.

(** The base letter of a character: a precomposed letter without its
    diacritic, nothing for a combining mark, any other character itself. *)
Definition base_letter (c : N) : list N :=
  filter (fun d => in_range 768 879 d = false) (Latin.decompose c).

(** Letters, digits and the underscore make up words. *)
Definition table_word (c : N) : bool := Latin.is_alnum c || (c =? 95)%N.

(** Every other character, punctuation or white space, separates words. *)
Definition table_sep (c : N) : bool := negb (table_word c) || is_space c.

(** The maximal runs of characters that are no separators. *)
Fixpoint tokens (sep : N -> bool) (s : str) : list str :=
  match s with
  | [] => []
  | c :: s' =>
      if sep c then tokens sep s'
      else
        match s' with
        | [] => [[c]]
        | d :: _ =>
            if sep d then [c] :: tokens sep s'
            else
              match tokens sep s' with
              | w :: ws => (c :: w) :: ws
              | [] => [[c]]
              end
        end
  end.

(** The words of a title, read without regard to case and diacritics:
    letters are taken in lower case and as base letters, and punctuation and
    white space only separate the words. *)
Definition title_words (title : str) : list str :=
  tokens table_sep ((Latin.lower_char <$> title) ≫= base_letter).

(** The surname of the first author, read without regard to case and
    punctuation: the letters and digits, in lower case, of the text before
    the first semicolon and before the first comma.  Diacritics stay. *)
Definition surname_letters (authors : str) : str :=
  filter (fun c => table_word c = true)
    (Latin.lower_char <$> hd [] (split_on 44 (hd [] (split_on 59 authors)))).

(** Two titles that differ only in letter case, diacritics or punctuation:
    they are equal up to the case of the ASCII letters, or they are written
    in the characters of the table and have the same words. *)
Definition same_title (t1 t2 : str) : Prop :=
  ascii_case_eq t1 t2
  \/ (in_table t1 /\ in_table t2 /\ title_words t1 = title_words t2).

(** Two author fields whose first author differs only in letter case or
    punctuation. *)
Definition same_first_author (a1 a2 : str) : Prop :=
  ascii_case_eq a1 a2
  \/ (in_table a1 /\ in_table a2 /\ surname_letters a1 = surname_letters a2).

Section TableAgreement.
Context `{Unicode}.

(** The separators of [normalize_text]: what it turns into a space, and
    white space. *)
Definition text_sep (c : N) : bool := negb (is_word c) || is_space c.

(** What the Python runtime does on the characters of the table: [str.lower]
    lower-cases character by character; the canonical decomposition without
    its combining marks is the base letters; and the word characters are
    those of the table. *)
Definition agrees_with_table : Prop :=
  (forall s, in_table s -> lower s = Latin.lower_char <$> s)
  /\ (forall s, in_table s ->
        filter (fun c => is_Mn c = false) (nfd s) = s ≫= base_letter)
  /\ (forall c, table_char c = true -> is_word c = table_word c).

End TableAgreement.

(** Records for the cases that are not folded. *)
Module FoldSample.

Definition covid_hyphen : record :=
  Sample.mk_record [("title", "Covid-19 outcomes in adults");
                    ("authors", "Smith, J"); ("year", "2020")]%string.
Definition covid_plain : record :=
  Sample.mk_record [("title", "Covid19 outcomes in adults");
                    ("authors", "Smith, J"); ("year", "2020")]%string.

Definition year_plain : record :=
  Sample.mk_record [("title", "Outcomes in adults");
                    ("authors", "Smith, J"); ("year", "2020")]%string.
Definition year_bracketed : record :=
  Sample.mk_record [("title", "Outcomes in adults");
                    ("authors", "Smith, J"); ("year", "(2020)")]%string.

End FoldSample.

(** * Properties *)

(** ** Facts about the string operations *)

Section StringFacts.
Context {A : Type} (f : A -> bool).

Lemma drop_while_split (l : list A) :
  exists k, l = k ++ drop_while f l /\ Forall (fun x => f x = true) k.
Proof.
  induction l as [|x l [k [Hk Hf]]]; simpl.
  - exists []. split; [reflexivity | constructor].
  - destruct (f x) eqn:Hx.
    + exists (x :: k). split; [simpl; congruence | constructor; assumption].
    + exists []. split; [reflexivity | constructor].
Qed.

Lemma drop_while_head (l : list A) x l' :
  drop_while f l = x :: l' -> f x = false.
Proof.
  induction l as [|y l IH]; simpl; [discriminate |].
  destruct (f y) eqn:Hy; [exact IH |].
  intros [= <- _]. exact Hy.
Qed.

Lemma drop_while_length (l : list A) : (length (drop_while f l) <= length l)%nat.
Proof.
  induction l as [|x l IH]; simpl; [lia |].
  destruct (f x); simpl; lia.
Qed.

Lemma drop_while_trimmed (l : list A) : trimmed_l f (drop_while f l).
Proof.
  destruct (drop_while f l) as [|x l'] eqn:E; simpl; [exact I |].
  eapply drop_while_head, E.
Qed.

Lemma drop_while_id (l : list A) : trimmed_l f l -> drop_while f l = l.
Proof. destruct l as [|x l]; simpl; [reflexivity |]. intros ->. reflexivity. Qed.

Lemma trimmed_l_prefix (k l : list A) : trimmed_l f (k ++ l) -> trimmed_l f k.
Proof. destruct k; simpl; auto. Qed.

End StringFacts.

Lemma rstrip_by_length f s : (length (rstrip_by f s) <= length s)%nat.
Proof.
  unfold rstrip_by. rewrite length_rev.
  etransitivity; [apply drop_while_length |]. rewrite length_rev. lia.
Qed.

Lemma strip_length s : (length (strip s) <= length s)%nat.
Proof.
  unfold strip, lstrip_by.
  etransitivity; [apply rstrip_by_length | apply drop_while_length].
Qed.

Lemma strip_trimmed s : trimmed (strip s).
Proof.
  unfold strip, rstrip_by, lstrip_by. split.
  - pose proof (drop_while_trimmed is_space s) as Ht.
    destruct (drop_while_split is_space (rev (drop_while is_space s)))
      as [k [Hk _]].
    apply (f_equal (@rev N)) in Hk.
    rewrite rev_involutive, rev_app_distr in Hk.
    rewrite Hk in Ht. eapply trimmed_l_prefix, Ht.
  - rewrite rev_involutive. apply drop_while_trimmed.
Qed.

Lemma strip_id s : trimmed s -> strip s = s.
Proof.
  intros [Hl Hr]. unfold strip, rstrip_by, lstrip_by.
  rewrite (drop_while_id _ _ Hl), (drop_while_id _ _ Hr).
  apply rev_involutive.
Qed.

Lemma strip_idempotent s : strip (strip s) = strip s.
Proof. apply strip_id, strip_trimmed. Qed.

(** ** normalize_doi *)

Section NormalizeDoi.
Context `{Unicode}.

Lemma strip_prefix_step_length d p :
  (length (strip_prefix_step d p) <= length d)%nat.
Proof.
  unfold strip_prefix_step.
  destruct (startswith _ _); [rewrite length_drop |]; lia.
Qed.

Lemma prefix_loop_length ps d :
  (length (fold_left strip_prefix_step ps d) <= length d)%nat.
Proof.
  revert d. induction ps as [|p ps IH]; intros d; simpl; [lia |].
  etransitivity; [apply IH | apply strip_prefix_step_length].
Qed.

Lemma prefix_loop_no_match ps d :
  Forall (fun p => startswith (lower d) (lower p) = false) ps ->
  fold_left strip_prefix_step ps d = d.
Proof.
  induction 1 as [|p ps Hp _ IH]; simpl; [reflexivity |].
  unfold strip_prefix_step at 2. rewrite Hp. exact IH.
Qed.

Lemma prefix_loop_match ps d :
  d <> [] -> Forall (fun p => p <> []) ps ->
  Exists (fun p => startswith (lower d) (lower p) = true) ps ->
  (length (fold_left strip_prefix_step ps d) < length d)%nat.
Proof.
  intros Hd Hne. induction Hne as [|p ps Hp Hne IH]; intros Hex.
  - inversion Hex.
  - simpl. destruct (startswith (lower d) (lower p)) eqn:Hm.
    + eapply Nat.le_lt_trans; [apply prefix_loop_length |].
      unfold strip_prefix_step. rewrite Hm, length_drop.
      destruct d; [congruence |]. destruct p; [congruence |]. simpl. lia.
    + unfold strip_prefix_step at 2. rewrite Hm. apply IH.
      inversion Hex; subst; [congruence | assumption].
Qed.

Lemma doi_prefixes_nonempty : Forall (fun p : str => p <> []) doi_prefixes.
Proof. repeat constructor; discriminate. Qed.

Lemma normalize_doi_trimmed v : trimmed (normalize_doi v).
Proof.
  unfold normalize_doi. destruct (_ || _); [| apply strip_trimmed].
  split; exact I.
Qed.

Lemma normalize_doi_nonempty_str y :
  y <> [] -> trimmed y ->
  normalize_doi (VStr y) = strip (fold_left strip_prefix_step doi_prefixes y).
Proof.
  intros Hy Ht. unfold normalize_doi.
  destruct y as [|c y]; [congruence |]. simpl truthy. simpl isna. simpl to_str.
  cbv beta iota. simpl negb. simpl orb. cbv iota. rewrite (strip_id _ Ht).
  reflexivity.
Qed.

(** C3 (as amended): a second application of [normalize_doi] changes nothing
    exactly when the first result is empty or begins, case-insensitively,
    with none of the six prefixes; the prefix loop removes each prefix at
    most once, in the order of the list. *)
Theorem normalize_doi_idempotent_iff (x : str) :
  normalize_doi (VStr (normalize_doi (VStr x))) = normalize_doi (VStr x)
  <-> (normalize_doi (VStr x) = []
       \/ Forall (fun p => startswith (lower (normalize_doi (VStr x))) (lower p)
                           = false) doi_prefixes).
Proof.
  pose proof (normalize_doi_trimmed (VStr x)) as Ht.
  set (y := normalize_doi (VStr x)) in *. clearbody y.
  destruct (decide (y = [])) as [-> | Hy].
  { split; [intros _; left; reflexivity | intros _; reflexivity]. }
  rewrite (normalize_doi_nonempty_str y Hy Ht). split.
  - intros Heq. right.
    destruct (decide (Forall (fun p => startswith (lower y) (lower p) = false)
                        doi_prefixes)) as [Hall | Hex];
      [exact Hall | exfalso].
    apply not_Forall_Exists in Hex; [| intros p; apply _].
    assert (Hex' : Exists (fun p => startswith (lower y) (lower p) = true)
                     doi_prefixes).
    { eapply Exists_impl; [exact Hex |]. intros p Hp. simpl in Hp.
      destruct (startswith _ _); congruence. }
    pose proof (prefix_loop_match _ _ Hy doi_prefixes_nonempty Hex') as Hlt.
    pose proof (strip_length (fold_left strip_prefix_step doi_prefixes y)) as Hle.
    rewrite Heq in Hle. lia.
  - intros [-> | Hall]; [congruence |].
    rewrite (prefix_loop_no_match _ _ Hall). apply strip_id, Ht.
Qed.

End NormalizeDoi.

(** C3, counterexample: ['doi:doi:10.1/x'] normalises to ['doi:10.1/x'], which
    normalises to ['10.1/x']. *)
Lemma normalize_doi_not_idempotent :
  let x := py "doi:doi:10.1/x" in
  @normalize_doi Latin.latin (VStr x) = py "doi:10.1/x"
  /\ @normalize_doi Latin.latin (VStr (@normalize_doi Latin.latin (VStr x)))
     = py "10.1/x"
  /\ @normalize_doi Latin.latin (VStr (@normalize_doi Latin.latin (VStr x)))
     <> @normalize_doi Latin.latin (VStr x).
Proof. vm_compute. repeat split; discriminate. Qed.

(** ** The completeness sort *)

Section Sorting.

Lemma key_ltb_spec a b :
  key_ltb a b = true
  <-> (a.1 < b.1)%nat \/ (a.1 = b.1 /\ (a.2 < b.2)%nat).
Proof.
  unfold key_ltb.
  rewrite orb_true_iff, andb_true_iff, !Nat.ltb_lt, Nat.eqb_eq. reflexivity.
Qed.

Lemma key_ge_spec a b :
  key_ge a b
  <-> (b.1.1 < a.1.1)%nat \/ (a.1.1 = b.1.1 /\ (b.1.2 <= a.1.2)%nat).
Proof.
  unfold key_ge. rewrite <- not_true_iff_false, key_ltb_spec.
  unfold sort_key; simpl. lia.
Qed.

Global Instance key_ge_trans : Transitive key_ge.
Proof. intros a b c. rewrite !key_ge_spec. lia. Qed.

Lemma key_ge_total a b : key_ge a b \/ key_ge b a.
Proof. rewrite !key_ge_spec. lia. Qed.

Lemma insert_desc_perm x l : insert_desc x l ≡ₚ x :: l.
Proof.
  induction l as [|y l IH]; simpl; [reflexivity |].
  destruct (key_ltb _ _); [| reflexivity].
  rewrite IH. apply perm_swap.
Qed.

Lemma sorted_desc_perm l : sorted_desc l ≡ₚ l.
Proof.
  induction l as [|x l IH]; simpl; [reflexivity |].
  rewrite insert_desc_perm. constructor. exact IH.
Qed.

Lemma insert_desc_sorted x l :
  Sorted key_ge l -> Sorted key_ge (insert_desc x l).
Proof.
  induction 1 as [|y l Hs IH Hhd]; simpl.
  - repeat constructor.
  - destruct (key_ltb (sort_key x) (sort_key y)) eqn:E.
    + constructor; [exact IH |].
      assert (Hyx : key_ge y x).
      { destruct (key_ge_total y x) as [Hge | Hge]; [exact Hge |].
        unfold key_ge in Hge. congruence. }
      destruct l as [|z l]; simpl.
      * constructor. exact Hyx.
      * destruct (key_ltb (sort_key x) (sort_key z)).
        -- constructor. inversion Hhd; assumption.
        -- constructor. exact Hyx.
    + constructor; [constructor; assumption |]. constructor. exact E.
Qed.

Lemma sorted_desc_sorted l : Sorted key_ge (sorted_desc l).
Proof.
  induction l as [|x l IH]; simpl; [constructor |].
  apply insert_desc_sorted, IH.
Qed.

Lemma records_scored_lookup records i x :
  records_scored records !! i = Some x
  <-> exists r, records !! i = Some r /\ x = (score r, i, r).
Proof.
  unfold records_scored. rewrite list_lookup_imap.
  destruct (records !! i) as [r|]; simpl; split.
  - intros [= <-]. eauto.
  - intros [r' [[= <-] ->]]. reflexivity.
  - discriminate.
  - intros [r' [[=] _]].
Qed.

Lemma records_scored_index_inj records x y :
  x ∈ records_scored records -> y ∈ records_scored records ->
  x.1.2 = y.1.2 -> x = y.
Proof.
  intros [i Hi]%list_elem_of_lookup [j Hj]%list_elem_of_lookup.
  apply records_scored_lookup in Hi as [r [Hr ->]].
  apply records_scored_lookup in Hj as [r' [Hr' ->]]. simpl.
  intros ->. congruence.
Qed.

(** A list that is in descending key order and holds each index once is in
    strictly descending key order. *)
Lemma sorted_strict l :
  StronglySorted key_ge l ->
  (forall x y, x ∈ l -> y ∈ l -> x.1.2 = y.1.2 -> x = y) ->
  NoDup l ->
  StronglySorted key_gt l.
Proof.
  induction 1 as [|x l Hs IH Hall]; intros Hinj Hnd; [constructor |].
  apply NoDup_cons in Hnd as [Hx Hnd].
  constructor.
  - apply IH; [| exact Hnd]. intros a b Ha Hb. apply Hinj; by right.
  - rewrite Forall_forall in Hall |- *. intros y Hy.
    specialize (Hall y Hy). apply key_ge_spec in Hall. unfold key_gt.
    destruct (decide (x.1.2 = y.1.2)) as [Heq | Hne]; [| lia].
    exfalso. apply Hx.
    rewrite (Hinj x y); [exact Hy | by left | by right | exact Heq].
Qed.

Lemma records_scored_NoDup records : NoDup (records_scored records).
Proof.
  apply NoDup_alt. intros i j x Hi Hj.
  apply records_scored_lookup in Hi as [r [_ ->]].
  apply records_scored_lookup in Hj as [r' [_ [= _ -> _]]]. reflexivity.
Qed.

(** Any arrangement of the scored records in descending key order is in
    strictly descending order. *)
Lemma arrangement_strict records l :
  l ≡ₚ records_scored records -> Sorted key_ge l -> StronglySorted key_gt l.
Proof.
  intros Hp Hs. apply sorted_strict.
  - apply Sorted_StronglySorted; [apply _ | exact Hs].
  - intros x y Hx Hy. rewrite Hp in Hx, Hy.
    eapply records_scored_index_inj; eassumption.
  - rewrite Hp. apply records_scored_NoDup.
Qed.

(** The descending arrangement of the scored records is unique: the result
    does not depend on how the sort proceeds. *)
Lemma arrangement_unique records l :
  l ≡ₚ records_scored records -> Sorted key_ge l ->
  l = sorted_desc (records_scored records).
Proof.
  intros Hp Hs.
  apply (Sorted_unique_strong key_ge); [| exact Hs | apply sorted_desc_sorted |].
  - intros x y Hx Hy Hxy Hyx. rewrite Hp in Hx.
    rewrite sorted_desc_perm in Hy.
    eapply records_scored_index_inj; [eassumption .. |].
    apply key_ge_spec in Hxy, Hyx. lia.
  - rewrite Hp, sorted_desc_perm. reflexivity.
Qed.

End Sorting.

(** ** The deduplication loop *)

Section Dedup.
Context `{Unicode}.

Lemma matchable_nonempty fp :
  bool_decide (fp <> []) && (10 <? length fp)%nat = matchable fp.
Proof.
  unfold matchable. destruct fp as [|c fp]; [reflexivity |].
  rewrite bool_decide_true by discriminate. reflexivity.
Qed.

(** The three outcomes of one iteration. *)
Lemma dedup_step_doi_hit st r :
  doi_hit st r ->
  dedup_step st r =
    DedupState (unique_records st) (seen_dois st) (seen_fingerprints st)
      (duplicates_by_doi st + 1) (duplicates_by_fingerprint st)
      (duplicate_details st ++ [(py "DOI", source_db r)]).
Proof.
  intros [Hd Hin]. unfold dedup_step, check_doi. cbv zeta.
  change (normalize_doi (get r "doi" (VStr []))) with (record_doi r).
  rewrite bool_decide_true by exact Hd.
  rewrite bool_decide_true by exact Hin. reflexivity.
Qed.

Lemma check_doi_miss st r :
  ~ doi_hit st r ->
  check_doi st r =
    (false,
     DedupState (unique_records st) (register_doi (seen_dois st) r)
       (seen_fingerprints st) (duplicates_by_doi st)
       (duplicates_by_fingerprint st) (duplicate_details st)).
Proof.
  intros Hmiss. unfold check_doi, register_doi, doi_hit in *. cbv zeta.
  change (normalize_doi (get r "doi" (VStr []))) with (record_doi r).
  destruct st; simpl in *.
  case_bool_decide; [| reflexivity].
  rewrite bool_decide_false by tauto. reflexivity.
Qed.

Lemma dedup_step_fingerprint_hit st r :
  ~ doi_hit st r -> fingerprint_hit st r ->
  dedup_step st r =
    DedupState (unique_records st) (register_doi (seen_dois st) r)
      (seen_fingerprints st) (duplicates_by_doi st)
      (duplicates_by_fingerprint st + 1)
      (duplicate_details st ++ [(py "Fingerprint", source_db r)]).
Proof.
  intros Hmiss [Hm Hin]. unfold dedup_step.
  rewrite (check_doi_miss _ _ Hmiss). simpl. unfold check_fingerprint.
  rewrite matchable_nonempty, Hm. simpl.
  rewrite bool_decide_true by exact Hin. reflexivity.
Qed.

Lemma dedup_step_kept st r :
  ~ doi_hit st r -> ~ fingerprint_hit st r ->
  dedup_step st r =
    DedupState (unique_records st ++ [r]) (register_doi (seen_dois st) r)
      (register_fingerprint (seen_fingerprints st) r)
      (duplicates_by_doi st) (duplicates_by_fingerprint st)
      (duplicate_details st).
Proof.
  intros Hmiss Hfp. unfold dedup_step.
  rewrite (check_doi_miss _ _ Hmiss). simpl.
  unfold check_fingerprint, register_fingerprint, fingerprint_hit in *.
  rewrite matchable_nonempty. simpl in *.
  destruct (matchable (create_fingerprint r)); [| reflexivity].
  rewrite bool_decide_false by tauto. reflexivity.
Qed.

Global Instance doi_hit_dec st r : Decision (doi_hit st r).
Proof. unfold doi_hit. apply _. Defined.

Global Instance fingerprint_hit_dec st r : Decision (fingerprint_hit st r).
Proof. unfold fingerprint_hit. apply _. Defined.

(** Case analysis on one iteration. *)
Lemma dedup_step_cases (P : dedup_state -> Prop) st r :
  (doi_hit st r ->
   P (DedupState (unique_records st) (seen_dois st) (seen_fingerprints st)
        (duplicates_by_doi st + 1) (duplicates_by_fingerprint st)
        (duplicate_details st ++ [(py "DOI", source_db r)]))) ->
  (~ doi_hit st r -> fingerprint_hit st r ->
   P (DedupState (unique_records st) (register_doi (seen_dois st) r)
        (seen_fingerprints st) (duplicates_by_doi st)
        (duplicates_by_fingerprint st + 1)
        (duplicate_details st ++ [(py "Fingerprint", source_db r)]))) ->
  (~ doi_hit st r -> ~ fingerprint_hit st r ->
   P (DedupState (unique_records st ++ [r]) (register_doi (seen_dois st) r)
        (register_fingerprint (seen_fingerprints st) r)
        (duplicates_by_doi st) (duplicates_by_fingerprint st)
        (duplicate_details st))) ->
  P (dedup_step st r).
Proof.
  intros H1 H2 H3.
  destruct (decide (doi_hit st r)) as [Hd | Hd].
  { rewrite dedup_step_doi_hit by exact Hd. auto. }
  destruct (decide (fingerprint_hit st r)) as [Hf | Hf].
  { rewrite dedup_step_fingerprint_hit by assumption. auto. }
  rewrite dedup_step_kept by assumption. auto.
Qed.

(** Induction over the loop: [P l st] relates the records processed so far
    to the state reached. *)
Lemma dedup_loop_ind (P : list record -> dedup_state -> Prop) :
  P [] dedup_init ->
  (forall l st r, P l st -> P (l ++ [r]) (dedup_step st r)) ->
  forall l, P l (dedup_loop l).
Proof.
  intros Hinit Hstep l. induction l as [|r l IH] using rev_ind; [exact Hinit |].
  unfold dedup_loop. rewrite fold_left_app. simpl. apply Hstep, IH.
Qed.

Lemma records_sorted_perm records : records_sorted records ≡ₚ records.
Proof.
  unfold records_sorted. rewrite sorted_desc_perm.
  unfold records_scored. rewrite fmap_imap.
  rewrite (imap_ext _ (const id)) by reflexivity.
  rewrite imap_const, list_fmap_id. reflexivity.
Qed.

Lemma records_sorted_length records :
  length (records_sorted records) = length records.
Proof. apply Permutation_length, records_sorted_perm. Qed.

Lemma register_doi_mono seen r x : x ∈ seen -> x ∈ register_doi seen r.
Proof. unfold register_doi. case_bool_decide; set_solver. Qed.

Lemma register_doi_self seen r :
  record_doi r <> [] -> lower (record_doi r) ∈ register_doi seen r.
Proof. intros Hd. unfold register_doi. rewrite bool_decide_true by exact Hd. set_solver. Qed.

Lemma doi_invariant_step st r :
  doi_invariant st -> doi_invariant (dedup_step st r).
Proof.
  intros [Hseen Hpair]. apply dedup_step_cases.
  - intros _. split; simpl; assumption.
  - intros _ _. split; simpl; [| assumption].
    intros r' Hr' Hd. apply register_doi_mono, Hseen; assumption.
  - intros Hmiss _. split; simpl.
    + intros r' [Hr' | ->%list_elem_of_singleton]%elem_of_app Hd.
      * apply register_doi_mono, Hseen; assumption.
      * apply register_doi_self, Hd.
    + intros i j ri rj Hij Hi Hj Hdi Hdj.
      apply lookup_snoc_Some in Hj as [[Hj Hj'] | [-> ->]].
      * apply lookup_snoc_Some in Hi as [[_ Hi'] | [-> _]]; [| lia].
        apply (Hpair i j ri rj); assumption.
      * apply lookup_snoc_Some in Hi as [[_ Hi'] | [-> _]]; [| lia].
        intros Heq. apply Hmiss. split; [exact Hdj |]. rewrite <- Heq.
        apply Hseen; [| exact Hdi]. eapply list_elem_of_lookup_2, Hi'.
Qed.

Lemma doi_invariant_loop l : doi_invariant (dedup_loop l).
Proof.
  apply (dedup_loop_ind (fun _ st => doi_invariant st)).
  - split; simpl; [intros r Hr; inversion Hr | intros i j ri rj _ Hi; inversion Hi].
  - intros _ st r. apply doi_invariant_step.
Qed.

(** Two survivors with a DOI never have the same lower-cased DOI. *)
Lemma survivors_distinct_keys records i j ri rj :
  i <> j ->
  (deduplicate_records records).1.1.1 !! i = Some ri ->
  (deduplicate_records records).1.1.1 !! j = Some rj ->
  record_doi ri <> [] -> record_doi rj <> [] ->
  lower (record_doi ri) <> lower (record_doi rj).
Proof.
  unfold deduplicate_records, dedup_result. simpl.
  destruct (doi_invariant_loop (records_sorted records)) as [_ Hpair].
  intros Hij Hi Hj Hdi Hdj.
  destruct (Nat.lt_total i j) as [Hlt | [-> | Hlt]]; [| congruence |].
  - apply (Hpair i j ri rj); assumption.
  - intros Heq. symmetry in Heq. revert Heq.
    apply (Hpair j i rj ri); assumption.
Qed.

(** C10: the survivors and the two kinds of duplicates add up to the input,
    and the provenance list has one entry per duplicate. *)
Theorem dedup_conserves_records (records : list record) :
  let '(unique, by_doi, by_fingerprint, details) := deduplicate_records records in
  (length unique + by_doi + by_fingerprint = length records
   /\ length details = by_doi + by_fingerprint)%nat.
Proof.
  unfold deduplicate_records, dedup_result.
  rewrite <- (records_sorted_length records).
  apply (dedup_loop_ind (fun l st =>
    (length (unique_records st) + duplicates_by_doi st
       + duplicates_by_fingerprint st = length l
     /\ length (duplicate_details st)
        = duplicates_by_doi st + duplicates_by_fingerprint st)%nat)).
  - split; reflexivity.
  - intros l st r [Hn Hd]. rewrite length_app. simpl.
    apply dedup_step_cases; intros; simpl; rewrite ?length_app; simpl; lia.
Qed.

(** C2: two survivors at different positions never share a non-empty
    normalised DOI. *)
Theorem survivors_distinct_doi (records : list record) i j ri rj :
  i <> j ->
  (deduplicate_records records).1.1.1 !! i = Some ri ->
  (deduplicate_records records).1.1.1 !! j = Some rj ->
  record_doi ri <> [] ->
  record_doi ri <> record_doi rj.
Proof.
  intros Hij Hi Hj Hdi Heq.
  eapply (survivors_distinct_keys records i j ri rj); try eassumption.
  - rewrite <- Heq. exact Hdi.
  - rewrite Heq. reflexivity.
Qed.

(** C9: DOI matching ignores the case of ASCII letters.  [str.lower] maps
    strings that are equal up to ASCII case to the same string; under that
    property of the runtime, two survivors never have non-empty normalised
    DOIs that are equal up to ASCII case. *)
Theorem doi_match_case_insensitive
    (Hlower : forall x y, ascii_case_eq x y -> lower x = lower y)
    (records : list record) i j ri rj :
  i <> j ->
  (deduplicate_records records).1.1.1 !! i = Some ri ->
  (deduplicate_records records).1.1.1 !! j = Some rj ->
  record_doi ri <> [] ->
  ~ ascii_case_eq (record_doi ri) (record_doi rj).
Proof.
  intros Hij Hi Hj Hdi Heq.
  eapply (survivors_distinct_keys records i j ri rj); try eassumption.
  - intros Hnil. apply Hdi. unfold ascii_case_eq in Heq. rewrite Hnil in Heq.
    destruct (record_doi ri); [reflexivity | discriminate].
  - apply Hlower, Heq.
Qed.

Lemma no_signal_no_hit st r :
  no_signal r -> ~ doi_hit st r /\ ~ fingerprint_hit st r.
Proof.
  intros [Hd Hm]. split; intros [Hx _]; congruence.
Qed.

Lemma no_signal_register st r :
  no_signal r ->
  register_doi (seen_dois st) r = seen_dois st
  /\ register_fingerprint (seen_fingerprints st) r = seen_fingerprints st.
Proof.
  intros [Hd Hm]. unfold register_doi, register_fingerprint.
  rewrite Hm, bool_decide_false by congruence. split; reflexivity.
Qed.

(** C7: the records without a usable DOI and without a matchable fingerprint
    all survive, each as often as it occurs in the input; a list of such
    records is returned whole, in sorted order, with no duplicate counted. *)
Theorem no_signal_records_kept (records : list record) :
  filter no_signal (deduplicate_records records).1.1.1
    ≡ₚ filter no_signal records
  /\ (Forall no_signal records ->
      deduplicate_records records = (records_sorted records, 0, 0, [])%nat).
Proof.
  unfold deduplicate_records, dedup_result. simpl. split.
  - rewrite <- (records_sorted_perm records) at 2. apply reflexive_eq.
    apply (dedup_loop_ind (fun l st =>
             filter no_signal (unique_records st) = filter no_signal l)).
    + reflexivity.
    + intros l st r IH. rewrite filter_app.
      apply dedup_step_cases; simpl.
      * intros [Hd _]. rewrite filter_cons_False, filter_nil, app_nil_r;
          [exact IH | intros [Hn _]; congruence].
      * intros _ [Hm _]. rewrite filter_cons_False, filter_nil, app_nil_r;
          [exact IH | intros [_ Hn]; congruence].
      * intros _ _. rewrite filter_app, IH. reflexivity.
  - intros Hall. rewrite <- (records_sorted_perm records) in Hall.
    revert Hall. generalize (records_sorted records). intros sorted Hall.
    eapply proj1. revert Hall.
    apply (dedup_loop_ind (fun l st =>
             Forall no_signal l ->
             (unique_records st, duplicates_by_doi st,
              duplicates_by_fingerprint st, duplicate_details st)
             = (l, 0, 0, [])%nat
             /\ seen_dois st = ∅ /\ seen_fingerprints st = ∅)).
    + intros _. repeat split.
    + intros l st r IH [Hl Hr]%Forall_app. apply Forall_inv in Hr.
      destruct (IH Hl) as [[= Hu Hd Hf Hdet] [Hsd Hsf]].
      destruct (no_signal_no_hit st r Hr) as [Hnd Hnf].
      destruct (no_signal_register st r Hr) as [Hrd Hrf].
      rewrite dedup_step_kept by assumption. simpl.
      rewrite Hu, Hd, Hf, Hdet, Hrd, Hrf. auto.
Qed.

(** C8: the result does not depend on how the sort proceeds.  Whatever
    descending arrangements of the scored records two runs obtain from the
    sort, both runs return the same survivors, in the same order, the same
    two counts and the same provenance list: those of
    [deduplicate_records]. *)
Theorem dedup_deterministic (records : list record) l1 l2 :
  descending_arrangement records l1 ->
  descending_arrangement records l2 ->
  dedup_result (dedup_loop (l1.*2)) = dedup_result (dedup_loop (l2.*2))
  /\ dedup_result (dedup_loop (l1.*2)) = deduplicate_records records.
Proof.
  intros [Hp1 Hs1] [Hp2 Hs2].
  rewrite (arrangement_unique records l1 Hp1 Hs1).
  rewrite (arrangement_unique records l2 Hp2 Hs2).
  split; reflexivity.
Qed.

(** The first record of the sorted order is always kept. *)
Lemma dedup_first_kept r :
  dedup_step dedup_init r =
    DedupState [r] (register_doi ∅ r) (register_fingerprint ∅ r) 0 0 [].
Proof.
  rewrite dedup_step_kept; [reflexivity | |]; intros [_ Hin]; simpl in Hin;
    set_solver.
Qed.

(** The sorted order of a list of two records. *)
Lemma records_sorted_pair r0 r1 :
  records_sorted [r0; r1]
  = if (score r1 <? score r0)%nat then [r0; r1] else [r1; r0].
Proof.
  unfold records_sorted, records_scored, sorted_desc. simpl.
  unfold key_ltb, sort_key. simpl.
  destruct (Nat.ltb_spec (score r1) (score r0)) as [Hlt | Hge].
  - destruct (Nat.ltb_spec (score r0) (score r1)); [lia |].
    destruct (Nat.eqb_spec (score r0) (score r1)); [lia |]. reflexivity.
  - destruct (Nat.ltb_spec (score r0) (score r1)); [reflexivity |].
    destruct (Nat.eqb_spec (score r0) (score r1)); [| lia]. reflexivity.
Qed.

(** Of two records with the same non-empty normalised DOI, the one that
    comes second in the sorted order is flagged by DOI. *)
Lemma dedup_pair_doi a b :
  record_doi a <> [] -> record_doi a = record_doi b ->
  dedup_result (dedup_loop [a; b]) = ([a], 1, 0, [(py "DOI", source_db b)])%nat.
Proof.
  intros Hd Heq. unfold dedup_loop. simpl. rewrite dedup_first_kept.
  rewrite dedup_step_doi_hit; [reflexivity |].
  split; simpl; [congruence |]. rewrite <- Heq. apply register_doi_self, Hd.
Qed.

(** Of two records without DOI and with the same matchable fingerprint, the
    one that comes second in the sorted order is flagged by fingerprint. *)
Lemma dedup_pair_fingerprint a b :
  record_doi a = [] -> record_doi b = [] ->
  matchable (create_fingerprint a) = true ->
  create_fingerprint a = create_fingerprint b ->
  dedup_result (dedup_loop [a; b])
  = ([a], 0, 1, [(py "Fingerprint", source_db b)])%nat.
Proof.
  intros Ha Hb Hm Heq. unfold dedup_loop. simpl. rewrite dedup_first_kept.
  rewrite dedup_step_fingerprint_hit; [reflexivity | |].
  - intros [Hd _]. congruence.
  - split; simpl; [congruence |]. unfold register_fingerprint.
    rewrite Hm, <- Heq. set_solver.
Qed.

(** C1 (as amended): the sorted order is an arrangement of the scored records
    in which every record stands before all records of a lower score and
    before the records of the same score that have a smaller index: among
    equally scored records the one ingested last comes first.  So of two
    equally scored records with the same normalised DOI the second of the
    input is the kept copy. *)
Theorem completeness_order (records : list record) :
  sorted_desc (records_scored records) ≡ₚ records_scored records
  /\ StronglySorted key_gt (sorted_desc (records_scored records))
  /\ (forall r0 r1,
        score r0 = score r1 ->
        record_doi r0 <> [] -> record_doi r0 = record_doi r1 ->
        deduplicate_records [r0; r1]
        = ([r1], 1, 0, [(py "DOI", source_db r0)])%nat).
Proof.
  split; [apply sorted_desc_perm |]. split.
  - apply (arrangement_strict records);
      [apply sorted_desc_perm | apply sorted_desc_sorted].
  - intros r0 r1 Hs Hd Heq. unfold deduplicate_records.
    rewrite records_sorted_pair, Hs, Nat.ltb_irrefl.
    apply dedup_pair_doi; congruence.
Qed.

(** Two records without DOI whose three fingerprint parts agree and whose
    fingerprint is matchable: the two-record list yields one survivor (the
    more complete record, the second one when the scores are equal) and one
    fingerprint duplicate. *)
Theorem same_fingerprint_merged (r1 r2 : record) :
  record_doi r1 = [] -> record_doi r2 = [] ->
  normalize_text (get r1 "title" (VStr []))
    = normalize_text (get r2 "title" (VStr [])) ->
  first_author_key (por (get r1 "authors" (VStr [])) (VStr []))
    = first_author_key (por (get r2 "authors" (VStr [])) (VStr [])) ->
  take 4 (to_str (por (get r1 "year" (VStr [])) (VStr [])))
    = take 4 (to_str (por (get r2 "year" (VStr [])) (VStr []))) ->
  matchable (create_fingerprint r1) = true ->
  create_fingerprint r1 = create_fingerprint r2
  /\ deduplicate_records [r1; r2]
     = if (score r2 <? score r1)%nat
       then ([r1], 0, 1, [(py "Fingerprint", source_db r2)])%nat
       else ([r2], 0, 1, [(py "Fingerprint", source_db r1)])%nat.
Proof.
  intros Hd1 Hd2 Ht Ha Hy Hm.
  assert (Hfp : create_fingerprint r1 = create_fingerprint r2).
  { unfold create_fingerprint. cbv zeta. rewrite Ht, Ha, Hy. reflexivity. }
  split; [exact Hfp |]. unfold deduplicate_records.
  rewrite records_sorted_pair. destruct (score r2 <? score r1)%nat.
  - apply dedup_pair_fingerprint; assumption.
  - apply dedup_pair_fingerprint; congruence.
Qed.

End Dedup.

(** ** The Scopus table *)

Section Convert.
Context `{Unicode}.

Lemma scopus_rec_keys i rec : (scopus_rec i rec).*1 = column_order.
Proof. unfold scopus_rec. destruct (page_fields rec). reflexivity. Qed.

Lemma add_keys_first : fold_left add_key column_order [] = column_order.
Proof. vm_compute. reflexivity. Qed.

Lemma add_keys_again : fold_left add_key column_order column_order = column_order.
Proof. vm_compute. reflexivity. Qed.

Lemma column_order_present :
  forallb (fun c => bool_decide (c ∈ column_order)) column_order = true.
Proof. vm_compute. reflexivity. Qed.

Lemma dicts_columns (dicts : list (list (str * value))) :
  dicts <> [] -> Forall (fun d => d.*1 = column_order) dicts ->
  columns (DataFrame_of_dicts dicts) = column_order.
Proof.
  intros Hne Hall. unfold DataFrame_of_dicts. simpl.
  destruct Hall as [|d dicts Hd Hall]; [congruence |]. simpl.
  rewrite Hd, add_keys_first. clear Hne Hd.
  induction Hall as [|d' dicts Hd' _ IH]; simpl; [reflexivity |].
  rewrite Hd', add_keys_again. exact IH.
Qed.

Lemma scopus_records_keys records :
  Forall (fun d => d.*1 = column_order) (imap scopus_rec records).
Proof.
  apply Forall_forall. intros d [i [r [-> _]]]%elem_of_lookup_imap.
  apply scopus_rec_keys.
Qed.

(** C5 (as amended): for a list of at least one record the table exists and
    its columns are the 45 labels of [column_order], in that order; it has
    one row per record and 45 cells in every row. *)
Theorem scopus_table_columns (records : list record) :
  records <> [] ->
  exists df,
    convert_to_scopus_format records = Some df
    /\ columns df = column_order
    /\ length (columns df) = 45%nat
    /\ length (rows df) = length records
    /\ Forall (fun row => length row = 45%nat) (rows df).
Proof.
  intros Hne. unfold convert_to_scopus_format, select_columns.
  rewrite dicts_columns;
    [| destruct records; [congruence | discriminate] | apply scopus_records_keys].
  rewrite column_order_present. eexists. split; [reflexivity |]. simpl.
  split; [reflexivity |]. split; [reflexivity |]. split.
  - rewrite !length_fmap, length_imap. reflexivity.
  - apply Forall_fmap, Forall_forall. intros row _. reflexivity.
Qed.

End Convert.

(** C5, counterexample: the table made from one (empty) record has 45 columns,
    not 44. *)
Lemma scopus_table_has_45_columns :
  exists df,
    @convert_to_scopus_format Latin.latin [∅] = Some df
    /\ length (columns df) = 45%nat
    /\ length (columns df) <> 44%nat.
Proof. eexists. split; [vm_compute; reflexivity |]. split; [reflexivity | discriminate]. Qed.

(** With no record at all the data frame has no column, and the selection of
    the columns fails. *)
Lemma scopus_table_no_record :
  forall `{Unicode}, convert_to_scopus_format [] = None.
Proof. intros U. reflexivity. Qed.

(** ** The RIS parser *)

Section Ris.
Context `{Unicode}.

(** What the proofs need to know of the tag table. *)
Lemma ris_mapping_facts :
  Forall (fun kv : str * str =>
            kv.2 <> []
            /\ (special_tag kv.1 = true -> ~ plain_field kv.2)
            /\ (kv.2 = py "issn" -> kv.1 = py "SN")
            /\ (kv.2 = py "doc_type" -> kv.1 = py "TY"))
         ris_mapping.
Proof. apply (bool_decide_unpack _). vm_compute. exact I. Qed.

Lemma ris_field_facts tag field :
  ris_field tag = Some field ->
  field <> []
  /\ (special_tag tag = true -> ~ plain_field field)
  /\ (field = py "issn" -> tag = py "SN")
  /\ (field = py "doc_type" -> tag = py "TY").
Proof.
  unfold ris_field. destruct (List.find _ _) as [[t f]|] eqn:Hfind; [| discriminate].
  intros [= <-]. apply find_some in Hfind as [Hin Ht].
  apply bool_decide_eq_true in Ht. simpl in Ht. subst t.
  pose proof ris_mapping_facts as Hall. rewrite Forall_forall in Hall.
  apply (Hall (tag, f)). apply list_elem_of_In, Hin.
Qed.

Lemma plain_field_not_special f :
  plain_field f -> f <> py "year" /\ f <> py "issn".
Proof.
  intros Hp. split; intros ->; apply Hp; apply (bool_decide_unpack _);
    vm_compute; exact I.
Qed.

(** The effect of a line that is no boundary on a plain field: the field is
    set when it is absent and the tag of the line maps to it. *)
Lemma ris_tag_step_plain R cur tag value f :
  tag_is tag "ER" = false -> tag_is tag "TY" = false -> plain_field f ->
  (ris_tag_step (R, cur) tag value).1 = R
  /\ fields (ris_tag_step (R, cur) tag value).2 !! f =
     match fields cur !! f with
     | Some x => Some x
     | None =>
         if bool_decide (ris_field tag = Some f) then Some (VStr value)
         else None
     end.
Proof.
  intros HER HTY Hplain. unfold ris_tag_step. rewrite HER, HTY.
  destruct (plain_field_not_special f Hplain) as [Hyear Hissn].
  destruct (ris_field tag) as [field|] eqn:Hfield.
  2:{ split; [reflexivity |]. simpl.
      destruct (fields cur !! f); reflexivity. }
  destruct (ris_field_facts _ _ Hfield) as (Hne & Hspecial & _ & _).
  rewrite (bool_decide_false (field = [])) by exact Hne.
  assert (Hsame : forall c : ris_record,
            special_tag tag = true -> fields c !! f = fields cur !! f ->
            fields c !! f =
            match fields cur !! f with
            | Some x => Some x
            | None =>
                if bool_decide (Some field = Some f) then Some (VStr value)
                else None
            end).
  { intros c Hsp ->. rewrite bool_decide_false.
    - destruct (fields cur !! f); reflexivity.
    - intros [= ->]. exact (Hspecial Hsp Hplain). }
  unfold special_tag, tag_in in Hsame. cbn [existsb] in Hsame.
  unfold tag_in. cbn [existsb].
  destruct (tag_is tag "AU"); [split; [reflexivity | apply Hsame; reflexivity] |].
  destruct (tag_is tag "A1"); [split; [reflexivity | apply Hsame; reflexivity] |].
  destruct (tag_is tag "A2"); [split; [reflexivity | apply Hsame; reflexivity] |].
  cbn [orb].
  destruct (tag_is tag "KW"); [split; [reflexivity | apply Hsame; reflexivity] |].
  destruct (tag_is tag "AD"); [split; [reflexivity | apply Hsame; reflexivity] |].
  assert (Hy : forall b1 b2 b3 b4 : bool, (b1 || (b2 || (b3 || (b4 || false)))) = true ->
            (b1 || (b2 || (b3 || (b4 || true)))) = true).
  { intros [] [] [] []; reflexivity. }
  destruct (tag_is tag "PY" || (tag_is tag "Y1" || (tag_is tag "DA"
              || (tag_is tag "Y2" || false)))) eqn:Hytag.
  { destruct (search_year value); (split; [reflexivity |]); apply Hsame;
      try reflexivity; cbn [orb];
      try (simpl; rewrite lookup_insert_ne by congruence; reflexivity);
      destruct (tag_is tag "PY"), (tag_is tag "Y1"), (tag_is tag "DA"),
        (tag_is tag "Y2"); try reflexivity; discriminate. }
  destruct (tag_is tag "SN") eqn:HSN.
  { assert (Hsp : false || (false || (false || (false || (false ||
              (tag_is tag "PY" || (tag_is tag "Y1" || (tag_is tag "DA"
              || (tag_is tag "Y2" || (true || false))))))))) = true).
    { destruct (tag_is tag "PY"), (tag_is tag "Y1"), (tag_is tag "DA"),
        (tag_is tag "Y2"); reflexivity. }
    cbv zeta. destruct (negb _); (split; [reflexivity |]); apply Hsame;
      try exact Hsp; try reflexivity.
    simpl. rewrite lookup_insert_ne by congruence. reflexivity. }
  clear Hsame.
  destruct (bool_decide (fields cur !! field = None)) eqn:Hfree;
    [apply bool_decide_eq_true in Hfree | apply bool_decide_eq_false in Hfree];
    (split; [reflexivity |]); simpl.
  - destruct (decide (field = f)) as [-> | Hff].
    + rewrite lookup_insert_eq, Hfree, bool_decide_true by reflexivity.
      reflexivity.
    + rewrite lookup_insert_ne by exact Hff.
      rewrite bool_decide_false by congruence.
      destruct (fields cur !! f); reflexivity.
  - destruct (decide (field = f)) as [-> | Hff].
    + destruct (fields cur !! f); [reflexivity | congruence].
    + rewrite bool_decide_false by congruence.
      destruct (fields cur !! f); reflexivity.
Qed.

(** A line whose tag is not SN leaves the ISSN as it is. *)
Lemma ris_tag_step_issn_other R cur tag value :
  tag_is tag "ER" = false -> tag_is tag "TY" = false ->
  tag_is tag "SN" = false ->
  fields (ris_tag_step (R, cur) tag value).2 !! py "issn"
  = fields cur !! py "issn".
Proof.
  intros HER HTY HSN. unfold ris_tag_step. rewrite HER, HTY, HSN.
  destruct (ris_field tag) as [field|] eqn:Hfield; [| reflexivity].
  destruct (ris_field_facts _ _ Hfield) as (_ & _ & Hissn & _).
  assert (Hf : field <> py "issn").
  { intros Heq. apply Hissn in Heq. subst tag. discriminate HSN. }
  repeat match goal with
         | |- context [if ?b then _ else _] => destruct b
         | |- context [match search_year ?v with _ => _ end] =>
             destruct (search_year v)
         end; simpl; try reflexivity;
    rewrite lookup_insert_ne by (try exact Hf; discriminate); reflexivity.
Qed.

Lemma ris_tag_step_SN R cur value :
  ris_tag_step (R, cur) (py "SN") value
  = if negb (has_field (fields cur) "issn")
    then (R, set_field cur (py "issn") (issn_token value))
    else (R, cur).
Proof. reflexivity. Qed.

(** The effect of a line that is no boundary on the ISSN: once a non-empty
    ISSN is stored it stays; before that, an SN line stores its token. *)
Lemma ris_tag_step_issn R cur tag value :
  tag_is tag "ER" = false -> tag_is tag "TY" = false ->
  if has_field (fields cur) "issn"
  then fields (ris_tag_step (R, cur) tag value).2 !! py "issn"
       = fields cur !! py "issn"
  else if tag_is tag "SN" && bool_decide (issn_token value <> [])
       then fields (ris_tag_step (R, cur) tag value).2 !! py "issn"
            = Some (VStr (issn_token value))
       else has_field (fields (ris_tag_step (R, cur) tag value).2) "issn"
            = false.
Proof.
  intros HER HTY. destruct (tag_is tag "SN") eqn:HSN.
  - apply bool_decide_eq_true in HSN. subst tag. rewrite ris_tag_step_SN.
    destruct (has_field (fields cur) "issn") eqn:Hhas; simpl; [reflexivity |].
    case_bool_decide as Htok; simpl.
    + apply lookup_insert_eq.
    + unfold has_field. simpl. rewrite lookup_insert_eq.
      destruct (issn_token value); [reflexivity | congruence].
  - pose proof (ris_tag_step_issn_other R cur tag value HER HTY HSN) as Hsame.
    unfold has_field. rewrite Hsame. simpl.
    destruct (fields cur !! py "issn") as [v|]; [| reflexivity].
    destruct (truthy v); reflexivity.
Qed.

Lemma not_boundary_tags line tag value :
  is_boundary line = false -> ris_line line = Some (tag, value) ->
  tag_is tag "ER" = false /\ tag_is tag "TY" = false.
Proof.
  unfold is_boundary. intros Hb Hl. rewrite Hl in Hb.
  apply orb_false_elim in Hb. exact Hb.
Qed.

Lemma title_plain : plain_field (py "title").
Proof. apply (bool_decide_unpack _). vm_compute. exact I. Qed.

Lemma ris_step_records R cur line :
  is_boundary line = false -> (ris_step (R, cur) line).1 = R.
Proof.
  intros Hb. unfold ris_step.
  destruct (ris_line line) as [[tag value]|] eqn:Hl; [| reflexivity].
  destruct (not_boundary_tags _ _ _ Hb Hl) as [HER HTY].
  apply (ris_tag_step_plain R cur tag value _ HER HTY title_plain).
Qed.

Lemma ris_block_records block R cur :
  Forall (fun l => is_boundary l = false) block ->
  (fold_left ris_step block (R, cur)).1 = R.
Proof.
  intros Hall. revert cur.
  induction Hall as [|line block Hb _ IH]; intros cur; simpl; [reflexivity |].
  pose proof (ris_step_records R cur line Hb) as HR.
  destruct (ris_step (R, cur) line) as [R1 cur1]. simpl in HR. subst R1.
  apply IH.
Qed.

(** Over the lines of a record: a plain field that was absent holds the
    value of the first line whose tag maps to it. *)
Lemma ris_block_plain block R cur f :
  Forall (fun l => is_boundary l = false) block -> plain_field f ->
  fields (fold_left ris_step block (R, cur)).2 !! f =
    match fields cur !! f with
    | Some x => Some x
    | None => VStr <$> first_occurrence f block
    end.
Proof.
  intros Hall Hplain. revert cur.
  induction Hall as [|line block Hb _ IH]; intros cur; simpl.
  { destruct (fields cur !! f); reflexivity. }
  pose proof (ris_step_records R cur line Hb) as HR.
  assert (Hstep : fields (ris_step (R, cur) line).2 !! f =
            match fields cur !! f with
            | Some x => Some x
            | None =>
                match ris_line line with
                | Some (tag, value) =>
                    if bool_decide (ris_field tag = Some f)
                    then Some (VStr value) else None
                | None => None
                end
            end).
  { unfold ris_step.
    destruct (ris_line line) as [[tag value]|] eqn:Hl.
    - destruct (not_boundary_tags _ _ _ Hb Hl) as [HER HTY].
      apply (ris_tag_step_plain R cur tag value f HER HTY Hplain).
    - simpl. destruct (fields cur !! f); reflexivity. }
  destruct (ris_step (R, cur) line) as [R1 cur1]. simpl in HR, Hstep. subst R1.
  rewrite IH, Hstep.
  destruct (fields cur !! f); [reflexivity |].
  destruct (ris_line line) as [[tag value]|]; [| reflexivity].
  destruct (bool_decide (ris_field tag = Some f)); reflexivity.
Qed.

Lemma ris_step_issn R cur line :
  is_boundary line = false ->
  if has_field (fields cur) "issn"
  then fields (ris_step (R, cur) line).2 !! py "issn" = fields cur !! py "issn"
  else match first_issn [line] with
       | Some t => fields (ris_step (R, cur) line).2 !! py "issn"
                   = Some (VStr t) /\ t <> []
       | None => has_field (fields (ris_step (R, cur) line).2) "issn" = false
       end.
Proof.
  intros Hb. unfold ris_step, first_issn.
  destruct (ris_line line) as [[tag value]|] eqn:Hl.
  - destruct (not_boundary_tags _ _ _ Hb Hl) as [HER HTY].
    pose proof (ris_tag_step_issn R cur tag value HER HTY) as Hstep.
    destruct (has_field (fields cur) "issn"); [exact Hstep |].
    destruct (tag_is tag "SN" && bool_decide (issn_token value <> [])) eqn:Hc;
      [| exact Hstep].
    split; [exact Hstep |].
    apply andb_true_iff in Hc as [_ Hc]. apply bool_decide_eq_true in Hc. exact Hc.
  - simpl. destruct (has_field (fields cur) "issn"); reflexivity.
Qed.

Lemma ris_block_issn_kept block R cur :
  Forall (fun l => is_boundary l = false) block ->
  has_field (fields cur) "issn" = true ->
  fields (fold_left ris_step block (R, cur)).2 !! py "issn"
  = fields cur !! py "issn".
Proof.
  intros Hall. revert cur.
  induction Hall as [|line block Hb _ IH]; intros cur Hhas; simpl; [reflexivity |].
  pose proof (ris_step_records R cur line Hb) as HR.
  pose proof (ris_step_issn R cur line Hb) as Hstep. rewrite Hhas in Hstep.
  destruct (ris_step (R, cur) line) as [R1 cur1]. simpl in HR, Hstep. subst R1.
  rewrite IH, Hstep; [reflexivity |].
  unfold has_field in *. rewrite Hstep. exact Hhas.
Qed.

(** Over the lines of a record: when no non-empty ISSN was stored, the ISSN
    is the token of the first SN line that offers a non-empty one. *)
Lemma ris_block_issn block R cur t :
  Forall (fun l => is_boundary l = false) block ->
  has_field (fields cur) "issn" = false ->
  first_issn block = Some t ->
  fields (fold_left ris_step block (R, cur)).2 !! py "issn" = Some (VStr t).
Proof.
  intros Hall. revert cur.
  induction Hall as [|line block Hb Hall IH]; intros cur Hhas Hfirst;
    [discriminate |].
  pose proof (ris_step_records R cur line Hb) as HR.
  pose proof (ris_step_issn R cur line Hb) as Hstep. rewrite Hhas in Hstep.
  simpl in Hfirst, Hstep |- *.
  destruct (ris_step (R, cur) line) as [R1 cur1]. simpl in HR, Hstep. subst R1.
  destruct (ris_line line) as [[tag value]|].
  - destruct (tag_is tag "SN" && bool_decide (issn_token value <> [])).
    + injection Hfirst as <-. destruct Hstep as [Hstep Hne].
      rewrite ris_block_issn_kept; [exact Hstep | exact Hall |].
      unfold has_field. rewrite Hstep.
      destruct (issn_token value); [congruence | reflexivity].
    + apply IH; assumption.
  - apply IH; assumption.
Qed.

Lemma save_record_grows R cur : exists extra, save_record R cur = R ++ extra.
Proof.
  unfold save_record. destruct (ris_nonempty cur); [eauto |].
  exists []. rewrite app_nil_r. reflexivity.
Qed.

Lemma ris_step_boundary R cur line :
  is_boundary line = true ->
  (ris_step (R, cur) line).1 = save_record R cur.
Proof.
  unfold is_boundary, ris_step.
  destruct (ris_line line) as [[tag value]|]; [| discriminate].
  intros Hb. unfold ris_tag_step.
  destruct (tag_is tag "ER"); [reflexivity |].
  destruct (tag_is tag "TY"); [reflexivity | discriminate].
Qed.

Lemma ris_step_grows st line : exists extra, (ris_step st line).1 = st.1 ++ extra.
Proof.
  destruct st as [R cur]. destruct (is_boundary line) eqn:Hb.
  - rewrite ris_step_boundary by exact Hb. apply save_record_grows.
  - rewrite ris_step_records by exact Hb. exists []. simpl.
    rewrite app_nil_r. reflexivity.
Qed.

Lemma ris_run_grows lines st :
  exists extra, (fold_left ris_step lines st).1 = st.1 ++ extra.
Proof.
  revert st. induction lines as [|line lines IH]; intros st; simpl.
  - exists []. rewrite app_nil_r. reflexivity.
  - destruct (IH (ris_step st line)) as [e1 ->].
    destruct (ris_step_grows st line) as [e2 ->].
    exists (e2 ++ e1). rewrite app_assoc. reflexivity.
Qed.

(** The records returned when the loop continues from [st] over [lines]. *)
Lemma parse_from_grows lines st :
  exists extra,
    save_record (fold_left ris_step lines st).1 (fold_left ris_step lines st).2
    = st.1 ++ extra.
Proof.
  destruct (ris_run_grows lines st) as [e1 He1].
  destruct (save_record_grows (fold_left ris_step lines st).1
              (fold_left ris_step lines st).2) as [e2 ->].
  rewrite He1. exists (e1 ++ e2). rewrite app_assoc. reflexivity.
Qed.

Lemma parse_ris_lines_unfold lines :
  parse_ris_lines lines
  = save_record (fold_left ris_step lines ([], ris_empty)).1
      (fold_left ris_step lines ([], ris_empty)).2.
Proof.
  unfold parse_ris_lines. destruct (fold_left _ _ _). reflexivity.
Qed.

Lemma save_record_empty R : save_record R ris_empty = R.
Proof. reflexivity. Qed.

(** The state in which the lines of a record begin, after the opening TY
    line if there is one: the records of [pre] are saved, and the block of
    lines that follows holds no boundary. *)
Lemma record_lines_opening pre lines :
  record_lines pre lines ->
  exists cur0 block,
    fold_left ris_step lines (fold_left ris_step pre ([], ris_empty))
    = fold_left ris_step block (parse_ris_lines pre, cur0)
    /\ Forall (fun l => is_boundary l = false) block
    /\ has_field (fields cur0) "issn" = false
    /\ first_issn lines = first_issn block
    /\ (forall f, plain_field f ->
          match fields cur0 !! f with
          | Some x => Some x
          | None => VStr <$> first_occurrence f block
          end = VStr <$> first_occurrence f lines).
Proof.
  intros [(ty & block & -> & [v Hty] & Hblock) | [Hpre Hblock]].
  - exists (RisRecord {[py "doc_type" := VStr v]} None None None), block.
    simpl. rewrite parse_ris_lines_unfold.
    destruct (fold_left ris_step pre ([], ris_empty)) as [R0 c0]. simpl.
    unfold ris_step at 2. rewrite Hty. split; [reflexivity |].
    split; [exact Hblock |]. split; [reflexivity |]. split; [reflexivity |].
    intros f Hplain. simpl.
    destruct (decide (f = py "doc_type")) as [-> | Hf].
    + reflexivity.
    + rewrite lookup_singleton_ne by congruence.
      rewrite bool_decide_false; [reflexivity |].
      intros [= Heq]. apply Hf. rewrite <- Heq. reflexivity.
  - exists ris_empty, lines. split; [| split; [exact Hblock |]].
    + f_equal. rewrite parse_ris_lines_unfold.
      destruct Hpre as [-> | (pre' & er & -> & [v Her])]; [reflexivity |].
      rewrite fold_left_app. simpl.
      destruct (fold_left ris_step pre' ([], ris_empty)) as [R c].
      unfold ris_step. rewrite Her. reflexivity.
    + split; [reflexivity |]. split; [reflexivity |].
      intros f _. reflexivity.
Qed.

Lemma finish_record_plain cur f :
  plain_field f -> finish_record cur !! f = fields cur !! f.
Proof.
  intros Hp.
  assert (Hne : f <> py "authors" /\ f <> py "keywords"
                /\ f <> py "affiliations").
  { repeat split; intros ->; apply Hp; apply (bool_decide_unpack _);
      vm_compute; exact I. }
  destruct Hne as (Ha & Hk & Hf). unfold finish_record, join_into.
  destruct (AD_list cur), (KW_list cur), (AU_list cur);
    rewrite ?lookup_insert_ne by congruence; reflexivity.
Qed.

Lemma finish_record_issn cur :
  finish_record cur !! py "issn" = fields cur !! py "issn".
Proof.
  unfold finish_record, join_into.
  destruct (AD_list cur), (KW_list cur), (AU_list cur);
    rewrite ?lookup_insert_ne by discriminate; reflexivity.
Qed.

Lemma ris_nonempty_field cur f v :
  fields cur !! f = Some v -> ris_nonempty cur = true.
Proof.
  intros Hf. unfold ris_nonempty.
  rewrite bool_decide_false; [reflexivity |].
  intros Heq. rewrite Heq, lookup_empty in Hf. discriminate.
Qed.

(** The record that the parser emits for the lines of one record. *)
Lemma record_emitted pre lines rest :
  record_lines pre lines -> record_closed rest ->
  exists cur,
    (ris_nonempty cur = true ->
     exists after,
       parse_ris_lines (pre ++ lines ++ rest)
       = parse_ris_lines pre ++ finish_record cur :: after)
    /\ (forall f, plain_field f ->
          first_occurrence f lines = None \/
          fields cur !! f = VStr <$> first_occurrence f lines)
    /\ (forall t, first_issn lines = Some t ->
          fields cur !! py "issn" = Some (VStr t)).
Proof.
  intros Hlines Hrest.
  destruct (record_lines_opening pre lines Hlines)
    as (cur0 & block & Hrun & Hblock & Hissn0 & Hfirst & Hplain0).
  pose proof (ris_block_records block (parse_ris_lines pre) cur0 Hblock) as HR.
  exists (fold_left ris_step block (parse_ris_lines pre, cur0)).2.
  split; [| split].
  - intros Hne. rewrite (parse_ris_lines_unfold (pre ++ lines ++ rest)).
    rewrite !fold_left_app, Hrun.
    destruct (fold_left ris_step block (parse_ris_lines pre, cur0))
      as [R cur] eqn:Hfold. simpl in HR, Hne |- *. subst R.
    destruct Hrest as [-> | (c & post & -> & Hc)].
    + simpl. unfold save_record. rewrite Hne. exists []. reflexivity.
    + simpl.
      destruct (parse_from_grows post (ris_step (parse_ris_lines pre, cur) c))
        as [extra ->].
      rewrite ris_step_boundary by exact Hc.
      unfold save_record at 1. rewrite Hne.
      exists extra. rewrite <- app_assoc. reflexivity.
  - intros f Hp. rewrite (ris_block_plain block _ cur0 f Hblock Hp).
    specialize (Hplain0 f Hp). rewrite Hplain0.
    destruct (fields cur0 !! f) eqn:Hc0; [| right; reflexivity].
    destruct (first_occurrence f lines); [right | left]; congruence.
  - intros t Ht. rewrite Hfirst in Ht.
    apply ris_block_issn; assumption.
Qed.

(** C6 (as amended): in the record that the parser emits for the lines of
    one record, every plain field (every canonical field but the joined
    lists, the year and the ISSN) that some tag of these lines maps to holds
    the value of the first such line; and the ISSN holds the token of the
    first SN line that offers a non-empty one. *)
Theorem ris_first_occurrence_wins (pre lines rest : list str) :
  record_lines pre lines -> record_closed rest ->
  (forall field v,
     plain_field field -> first_occurrence field lines = Some v ->
     exists rec after,
       parse_ris_lines (pre ++ lines ++ rest)
       = parse_ris_lines pre ++ rec :: after
       /\ rec !! field = Some (VStr v))
  /\ (forall t,
       first_issn lines = Some t ->
       exists rec after,
         parse_ris_lines (pre ++ lines ++ rest)
         = parse_ris_lines pre ++ rec :: after
         /\ rec !! py "issn" = Some (VStr t)).
Proof.
  intros Hlines Hrest.
  destruct (record_emitted pre lines rest Hlines Hrest)
    as (cur & Hemit & Hplain & Hissn).
  split.
  - intros f v Hp Hfirst.
    assert (Hf : fields cur !! f = Some (VStr v)).
    { destruct (Hplain f Hp) as [Hnone | ->]; [congruence |].
      rewrite Hfirst. reflexivity. }
    destruct (Hemit (ris_nonempty_field _ _ _ Hf)) as [after Hparse].
    exists (finish_record cur), after. split; [exact Hparse |].
    rewrite finish_record_plain by exact Hp. exact Hf.
  - intros t Ht. specialize (Hissn t Ht).
    destruct (Hemit (ris_nonempty_field _ _ _ Hissn)) as [after Hparse].
    exists (finish_record cur), after. split; [exact Hparse |].
    rewrite finish_record_issn. exact Hissn.
Qed.

End Ris.

(** ** The functions on sample data *)

Section Samples.
Import Sample.
Local Existing Instance Latin.latin.

(** The scenarios of the specification. *)
Example ris_scenario_parsed :
  parse_ris_lines ris_scenario
  = [mk_record [("doc_type", "JOUR"); ("title", "A Study");
                ("authors", "Smith, J"); ("year", "2020");
                ("doi", "https://doi.org/10.1/x")]%string].
Proof. vm_compute. reflexivity. Qed.

Example doi_scenario_merged :
  deduplicate_records [second_copy; other_work; first_copy]
  = ([first_copy; other_work], 1, 0, [(py "DOI", VStr (py "Unknown"))])%nat.
Proof. vm_compute. reflexivity. Qed.

Example normalize_text_folds :
  normalize_text (VStr (py "Caf" ++ [233%N] ++ py " Study: a Review"))
  = py "cafe study a review".
Proof. vm_compute. reflexivity. Qed.

(** [latin] lower-cases ASCII letters as [str.lower] does. *)
Lemma latin_lower_char_ascii c :
  Latin.lower_char (ascii_lower_char c) = Latin.lower_char c.
Proof.
  unfold ascii_lower_char. destruct (in_range 65 90 c) eqn:E; [| reflexivity].
  unfold Latin.lower_char, Latin.is_upper. rewrite E. simpl.
  unfold in_range in *. apply andb_true_iff in E as [E1 E2].
  apply N.leb_le in E1, E2.
  replace (c + 32 <=? 90)%N with false by (symmetry; apply N.leb_gt; lia).
  replace (192 <=? c + 32)%N with false by (symmetry; apply N.leb_gt; lia).
  rewrite andb_false_r. reflexivity.
Qed.

Lemma latin_lower_ascii_case x y :
  ascii_case_eq x y -> lower x = lower y.
Proof.
  unfold ascii_case_eq. simpl. intros Heq.
  rewrite <- (list_fmap_ext (Latin.lower_char ∘ ascii_lower_char)
               Latin.lower_char x) by (intros; apply latin_lower_char_ascii).
  rewrite <- (list_fmap_ext (Latin.lower_char ∘ ascii_lower_char)
               Latin.lower_char y) by (intros; apply latin_lower_char_ascii).
  rewrite !list_fmap_compose, Heq. reflexivity.
Qed.

End Samples.

(** C1, counterexample: of two records of equal score the one with the larger
    index comes first in the sorted order, and it is the kept copy. *)
Lemma tie_break_prefers_later :
  score Sample.first_copy = score Sample.second_copy
  /\ records_sorted [Sample.first_copy; Sample.second_copy]
     = [Sample.second_copy; Sample.first_copy]
  /\ records_sorted [Sample.first_copy; Sample.second_copy]
     <> [Sample.first_copy; Sample.second_copy]
  /\ (@deduplicate_records Latin.latin
        [Sample.first_copy; Sample.second_copy]).1.1.1
     = [Sample.second_copy].
Proof.
  split; [vm_compute; reflexivity |]. split; [vm_compute; reflexivity |].
  split; [vm_compute; discriminate | vm_compute; reflexivity].
Qed.

(** Two exports of one work differ only in the
    diaeresis of the author; the fingerprints differ and both survive. *)
Lemma author_diacritics_not_folded :
  @record_doi Latin.latin Sample.muller_a = []
  /\ @record_doi Latin.latin Sample.muller_b = []
  /\ @matchable (@create_fingerprint Latin.latin Sample.muller_a) = true
  /\ @create_fingerprint Latin.latin Sample.muller_a
     <> @create_fingerprint Latin.latin Sample.muller_b
  /\ @deduplicate_records Latin.latin [Sample.muller_a; Sample.muller_b]
     = ([Sample.muller_b; Sample.muller_a], 0, 0, [])%nat.
Proof.
  repeat split; try (vm_compute; reflexivity). vm_compute. discriminate.
Qed.

(** C6, counterexample: the year of the emitted record is that of the later
    of two year tags, and the ISSN is that of the second SN line when the
    first one is empty. *)
Lemma ris_later_tag_stored :
  (first_occurrence (py "year") Sample.ris_two_years = Some (py "2020")
   /\ exists rec,
        @parse_ris_lines Latin.latin Sample.ris_two_years = [rec]
        /\ rec !! py "year" = Some (VStr (py "2021")))
  /\ (first_occurrence (py "issn") Sample.ris_two_issns = Some []
      /\ exists rec,
           @parse_ris_lines Latin.latin Sample.ris_two_issns = [rec]
           /\ rec !! py "issn" = Some (VStr (py "1234-5678"))).
Proof.
  split; (split; [vm_compute; reflexivity |]); eexists;
    (split; [vm_compute; reflexivity |]); vm_compute; reflexivity.
Qed.

(** ** Instances of the theorems *)

Lemma survivors_distinct_doi_witness :
  @record_doi Latin.latin Sample.other_work
  <> @record_doi Latin.latin Sample.first_copy.
Proof.
  apply (@survivors_distinct_doi Latin.latin
           [Sample.first_copy; Sample.other_work] 0 1).
  - lia.
  - vm_compute. reflexivity.
  - vm_compute. reflexivity.
  - vm_compute. discriminate.
Defined.

Lemma doi_match_case_insensitive_witness :
  ~ ascii_case_eq (@record_doi Latin.latin Sample.other_work)
      (@record_doi Latin.latin Sample.first_copy).
Proof.
  apply (@doi_match_case_insensitive Latin.latin latin_lower_ascii_case
           [Sample.first_copy; Sample.other_work] 0 1).
  - lia.
  - vm_compute. reflexivity.
  - vm_compute. reflexivity.
  - vm_compute. discriminate.
Defined.

Lemma no_signal_records_kept_witness :
  @deduplicate_records Latin.latin [Sample.blank_a; Sample.blank_b]
  = (records_sorted [Sample.blank_a; Sample.blank_b], 0, 0, [])%nat.
Proof.
  apply (proj2 (@no_signal_records_kept Latin.latin
                  [Sample.blank_a; Sample.blank_b])).
  repeat constructor; vm_compute; reflexivity.
Defined.

Lemma dedup_deterministic_witness :
  let l := [(12, 1, Sample.other_work); (12, 0, Sample.first_copy)]%nat in
  @dedup_result (@dedup_loop Latin.latin (l.*2))
  = @deduplicate_records Latin.latin [Sample.first_copy; Sample.other_work].
Proof.
  intros l.
  assert (Harr : descending_arrangement [Sample.first_copy; Sample.other_work] l).
  { split.
    - vm_compute. apply perm_swap.
    - repeat constructor; vm_compute; reflexivity. }
  exact (proj2 (@dedup_deterministic Latin.latin
                  [Sample.first_copy; Sample.other_work] l l Harr Harr)).
Defined.

Lemma completeness_order_witness :
  @deduplicate_records Latin.latin [Sample.first_copy; Sample.second_copy]
  = ([Sample.second_copy], 1, 0,
     [(py "DOI", source_db Sample.first_copy)])%nat.
Proof.
  apply (proj2 (proj2 (@completeness_order Latin.latin []))).
  - vm_compute. reflexivity.
  - vm_compute. discriminate.
  - vm_compute. reflexivity.
Defined.

Lemma same_fingerprint_merged_witness :
  @create_fingerprint Latin.latin Sample.cafe_a
  = @create_fingerprint Latin.latin Sample.cafe_b
  /\ @deduplicate_records Latin.latin [Sample.cafe_a; Sample.cafe_b]
     = ([Sample.cafe_b], 0, 1,
        [(py "Fingerprint", source_db Sample.cafe_a)])%nat.
Proof.
  apply (@same_fingerprint_merged Latin.latin Sample.cafe_a Sample.cafe_b);
    vm_compute; reflexivity.
Defined.

Lemma scopus_table_columns_witness :
  exists df,
    @convert_to_scopus_format Latin.latin [Sample.first_copy] = Some df
    /\ columns df = column_order
    /\ length (columns df) = 45%nat
    /\ length (rows df) = 1%nat
    /\ Forall (fun row => length row = 45%nat) (rows df).
Proof.
  apply (@scopus_table_columns Latin.latin [Sample.first_copy]). discriminate.
Defined.

Lemma ris_first_occurrence_wins_witness :
  exists rec after,
    @parse_ris_lines Latin.latin ([] ++ Sample.ris_two_titles ++ [])
    = @parse_ris_lines Latin.latin [] ++ rec :: after
    /\ rec !! py "title" = Some (VStr (py "A Study")).
Proof.
  assert (Hlines : record_lines [] Sample.ris_two_titles).
  { left. eexists _, _. split; [reflexivity |]. split.
    - eexists. vm_compute. reflexivity.
    - repeat constructor; vm_compute; reflexivity. }
  assert (Hclosed : record_closed []) by (left; reflexivity).
  apply (proj1 (@ris_first_occurrence_wins Latin.latin []
                  Sample.ris_two_titles [] Hlines Hclosed)).
  - apply (bool_decide_unpack _). vm_compute. exact I.
  - vm_compute. reflexivity.
Defined.

(** * Further properties *)

(** ** normalize_doi and normalize_text *)

Section MoreNormalize.
Context `{Unicode}.

Lemma strip_occurs s : occurs_in (strip s) s.
Proof.
  unfold strip, rstrip_by, lstrip_by.
  destruct (drop_while_split is_space s) as [k [Hk _]].
  destruct (drop_while_split is_space (rev (drop_while is_space s)))
    as [k' [Hk' _]].
  apply (f_equal (@rev N)) in Hk'. rewrite rev_involutive, rev_app_distr in Hk'.
  exists k, (rev k'). rewrite <- Hk'. exact Hk.
Qed.

Lemma occurs_in_trans a b c : occurs_in a b -> occurs_in b c -> occurs_in a c.
Proof.
  intros (x & y & ->) (x' & y' & ->). exists (x' ++ x), (y ++ y').
  rewrite <- !app_assoc. reflexivity.
Qed.

Lemma prefix_loop_occurs ps d :
  occurs_in (fold_left strip_prefix_step ps d) d.
Proof.
  revert d. induction ps as [|p ps IH]; intros d; simpl.
  - exists [], []. rewrite app_nil_r. reflexivity.
  - eapply occurs_in_trans; [apply IH |].
    unfold strip_prefix_step. destruct (startswith _ _).
    + exists (take (length p) d), []. rewrite app_nil_r, take_drop. reflexivity.
    + exists [], []. rewrite app_nil_r. reflexivity.
Qed.

(** X1: [normalize_doi] only cuts: its result is a contiguous piece of the
    string it was given, with every character, and its case, as it was. *)
Theorem normalize_doi_keeps_characters (s : str) :
  occurs_in (normalize_doi (VStr s)) s.
Proof.
  unfold normalize_doi. destruct s as [|c s].
  - exists [], []. reflexivity.
  - simpl truthy. simpl isna. simpl to_str. cbv beta iota. simpl negb. simpl orb.
    cbv iota.
    eapply occurs_in_trans; [apply strip_occurs |].
    eapply occurs_in_trans; [apply prefix_loop_occurs | apply strip_occurs].
Qed.

(** X2: the result of [normalize_doi] never begins or ends with white space,
    whatever the value (a string, NaN). *)
Theorem normalize_doi_never_padded (v : value) :
  trimmed (normalize_doi v).
Proof. apply normalize_doi_trimmed. Qed.

(** X3: a string that, once stripped, begins with none of the six prefixes
    (compared in lower case) is returned stripped and otherwise unchanged. *)
Theorem normalize_doi_bare (s : str) :
  Forall (fun p => startswith (lower (strip s)) (lower p) = false) doi_prefixes ->
  normalize_doi (VStr s) = strip s.
Proof.
  intros Hall. unfold normalize_doi. destruct s as [|c s]; [reflexivity |].
  simpl truthy. simpl isna. simpl to_str. cbv beta iota. simpl negb. simpl orb.
  cbv iota. rewrite (prefix_loop_no_match _ _ Hall). apply strip_idempotent.
Qed.

Lemma no_double_space_app_r a b :
  no_double_space (a ++ b) -> no_double_space b.
Proof.
  induction a as [|x a IH]; simpl; [auto |]. intros [_ Hr]. apply IH, Hr.
Qed.

Lemma no_double_space_app_l a b :
  no_double_space (a ++ b) -> no_double_space a.
Proof.
  induction a as [|x a IH]; simpl; [auto |]. intros [Hh Hr].
  split; [| apply IH, Hr]. destruct a; [exact I | exact Hh].
Qed.

Lemma space_is_space : is_space 32 = true.
Proof. reflexivity. Qed.

Lemma collapse_spaces_shape b s :
  no_double_space (collapse_spaces b s)
  /\ (b = true -> trimmed_l is_space (collapse_spaces b s)).
Proof.
  revert b. induction s as [|c s IH]; intros b; simpl; [auto |].
  destruct (is_space c) eqn:Hc.
  - destruct b.
    + apply IH.
    + split; [| discriminate]. simpl.
      destruct (IH true) as [Hn Ht]. specialize (Ht eq_refl).
      split; [| exact Hn].
      destruct (collapse_spaces true s) as [|d t]; [exact I |].
      simpl in Ht. intros [_ ->]. rewrite space_is_space in Ht. discriminate.
  - split; [| intros _; exact Hc]. simpl. split; [| apply IH].
    destruct (collapse_spaces false s); [exact I |].
    intros [-> _]. rewrite space_is_space in Hc. discriminate.
Qed.

Lemma collapse_spaces_chars b s :
  Forall (fun c => is_word c = true \/ is_space c = true) s ->
  Forall (fun c => c = 32%N \/ (is_space c = false /\ is_word c = true))
    (collapse_spaces b s).
Proof.
  intros Hall. revert b.
  induction Hall as [|c s Hc _ IH]; intros b; simpl; [constructor |].
  destruct (is_space c) eqn:Hsp.
  - destruct b; [apply IH |]. constructor; [left; reflexivity | apply IH].
  - constructor; [| apply IH]. right. split; [exact Hsp |].
    destruct Hc as [Hw | Hs]; [exact Hw | discriminate].
Qed.

Lemma Forall_occurs_in {A} (P : A -> Prop) (a b : list A) :
  (exists x y, b = x ++ a ++ y) -> Forall P b -> Forall P a.
Proof.
  intros (x & y & ->) Hall.
  apply Forall_app in Hall as [_ Hall]. apply Forall_app in Hall as [Hall _].
  exact Hall.
Qed.

(** X4: the result of [normalize_text] is a sequence of words separated by
    single plain spaces: every character is a word character or the plain
    space, no two spaces are neighbours, and neither end is white space. *)
Theorem normalize_text_shape (v : value) :
  trimmed (normalize_text v)
  /\ no_double_space (normalize_text v)
  /\ Forall (fun c => c = 32%N \/ (is_space c = false /\ is_word c = true))
       (normalize_text v).
Proof.
  unfold normalize_text. destruct (_ || _).
  { split; [split; exact I |]. split; [exact I | constructor]. }
  cbv zeta.
  set (t := collapse_spaces false _).
  destruct (strip_occurs t) as (x & y & Ht).
  split; [apply strip_trimmed |]. split.
  - pose proof (proj1 (collapse_spaces_shape false
      ((fun c => if negb (is_word c) && negb (is_space c) then 32%N else c)
         <$> filter (fun c => is_Mn c = false)
               (nfd (strip (lower (to_str v))))))) as Hn.
    fold t in Hn. rewrite Ht in Hn.
    apply no_double_space_app_r in Hn. apply no_double_space_app_l in Hn.
    exact Hn.
  - apply (Forall_occurs_in _ (strip t) t); [eauto |].
    subst t. apply collapse_spaces_chars.
    apply Forall_fmap, Forall_forall. intros c _. simpl.
    destruct (is_word c) eqn:Hw; simpl; [left; exact Hw |].
    destruct (is_space c) eqn:Hs; simpl; [right; exact Hs |].
    right. apply space_is_space.
Qed.

End MoreNormalize.

(** ** The source classifier *)

Section MoreClassifier.
Context `{Unicode}.

Lemma startswith_spec s p : startswith s p = true <-> exists t, s = p ++ t.
Proof.
  revert s. induction p as [|b p IH]; intros s; simpl.
  - split; [intros _; exists s; reflexivity | intros _; destruct s; reflexivity].
  - destruct s as [|a s]; simpl.
    + split; [discriminate | intros [t [=]]].
    + rewrite andb_true_iff, N.eqb_eq, IH. split.
      * intros [-> [t ->]]. exists t. reflexivity.
      * intros [t [= -> ->]]. split; [reflexivity | exists t; reflexivity].
Qed.

Lemma has_substring_spec s sub :
  has_substring s sub = true <-> occurs_in sub s.
Proof.
  induction s as [|a s IH].
  - change (has_substring [] sub) with (startswith [] sub || false).
    rewrite orb_false_r, startswith_spec. split.
    + intros [t Ht]. exists [], t. exact Ht.
    + intros (x & y & Hxy). destruct x; [exists y; exact Hxy |]. discriminate.
  - change (has_substring (a :: s) sub)
      with (startswith (a :: s) sub || has_substring s sub).
    rewrite orb_true_iff, startswith_spec, IH. split.
    + intros [[t Ht] | (x & y & ->)].
      * exists [], t. exact Ht.
      * exists (a :: x), y. reflexivity.
    + intros (x & y & Hxy). destruct x as [|a' x].
      * left. exists y. exact Hxy.
      * right. injection Hxy as -> ->. exists x, y. reflexivity.
Qed.

Lemma has_substring_false s sub :
  has_substring s sub = false <-> ~ occurs_in sub s.
Proof. rewrite <- has_substring_spec. destruct (has_substring s sub); split; congruence. Qed.

(** X5: [detect_source_db] returns one of the six labels, and ['Unknown']
    exactly when the lower-cased file name contains none of the nine
    keywords. *)
Theorem detect_source_db_labels (filename : str) :
  detect_source_db filename ∈ source_labels
  /\ (detect_source_db filename = py "Unknown"
      <-> Forall (fun k => ~ occurs_in k (lower filename)) source_keywords).
Proof.
  unfold detect_source_db. cbv zeta.
  destruct (has_substring (lower filename) (py "embase")) eqn:H1;
  destruct (has_substring (lower filename) (py "medline")) eqn:H2;
  destruct (has_substring (lower filename) (py "pubmed")) eqn:H3;
  destruct (has_substring (lower filename) (py "cochrane")) eqn:H4;
  destruct (has_substring (lower filename) (py "central")) eqn:H5;
  destruct (has_substring (lower filename) (py "scopus")) eqn:H6;
  destruct (has_substring (lower filename) (py "wos")) eqn:H7;
  destruct (has_substring (lower filename) (py "web of science")) eqn:H8;
  destruct (has_substring (lower filename) (py "savedrecs")) eqn:H9;
  cbn [orb];
  (split; [apply (bool_decide_unpack _); vm_compute; exact I |]);
  (split;
   [ intros Heq; try (exfalso; vm_compute in Heq; discriminate Heq);
     unfold source_keywords; cbn [fmap list_fmap];
     repeat constructor; apply has_substring_false; assumption
   | intros Hall; try reflexivity; exfalso;
     unfold source_keywords in Hall; cbn [fmap list_fmap] in Hall;
     repeat match goal with
            | Hf : Forall _ (_ :: _) |- _ =>
                apply Forall_cons in Hf; destruct Hf as [? Hf]
            end;
     repeat match goal with
            | Hn : ~ occurs_in ?k _, Ht : has_substring _ ?k = true |- _ =>
                apply has_substring_spec in Ht; exact (Hn Ht)
            end ]).
Qed.

End MoreClassifier.

(** ** More on the deduplication loop *)

Section MoreDedup.
Context `{Unicode}.

(** X6: the survivors are records of the input, in the order of the
    completeness sort: the list of survivors is [records_sorted] with some
    records left out; nothing is added, changed or moved. *)
Theorem survivors_from_input (records : list record) :
  (deduplicate_records records).1.1.1 `sublist_of` records_sorted records
  /\ (deduplicate_records records).1.1.1 ⊆ records.
Proof.
  assert (Hsub : (deduplicate_records records).1.1.1
                   `sublist_of` records_sorted records).
  { unfold deduplicate_records, dedup_result. simpl.
    apply (dedup_loop_ind (fun l st => unique_records st `sublist_of` l)).
    - constructor.
    - intros l st r IH. apply dedup_step_cases; intros; simpl.
      + apply sublist_inserts_r, IH.
      + apply sublist_inserts_r, IH.
      + apply sublist_app; [exact IH | reflexivity]. }
  split; [exact Hsub |].
  intros r Hr. apply sublist_subseteq in Hsub.
  rewrite <- (records_sorted_perm records). apply Hsub, Hr.
Qed.

Lemma dedup_step_unique_prefix st r :
  unique_records st `prefix_of` unique_records (dedup_step st r).
Proof.
  apply dedup_step_cases; intros; simpl; try reflexivity.
  apply prefix_app_r. reflexivity.
Qed.

Lemma dedup_run_unique_prefix l st :
  unique_records st `prefix_of` unique_records (fold_left dedup_step l st).
Proof.
  revert st. induction l as [|r l IH]; intros st; simpl; [reflexivity |].
  etransitivity; [apply dedup_step_unique_prefix | apply IH].
Qed.

(** X7: the record that the sort puts first is always the first survivor: a
    non-empty input never loses its most complete record. *)
Theorem top_record_survives (records : list record) :
  head (deduplicate_records records).1.1.1 = head (records_sorted records).
Proof.
  unfold deduplicate_records, dedup_result, dedup_loop. simpl.
  destruct (records_sorted records) as [|r l]; [reflexivity |]. simpl.
  destruct (dedup_run_unique_prefix l (dedup_step dedup_init r)) as [k ->].
  rewrite dedup_first_kept. reflexivity.
Qed.

Lemma register_fingerprint_mono seen r x :
  x ∈ seen -> x ∈ register_fingerprint seen r.
Proof. unfold register_fingerprint. destruct (matchable _); set_solver. Qed.

Lemma register_fingerprint_self seen r :
  matchable (create_fingerprint r) = true ->
  create_fingerprint r ∈ register_fingerprint seen r.
Proof. intros Hm. unfold register_fingerprint. rewrite Hm. set_solver. Qed.

Lemma seen_invariant_step st r :
  seen_invariant st -> seen_invariant (dedup_step st r).
Proof.
  intros [Hseen Hpair]. apply dedup_step_cases.
  - intros _. split; simpl; assumption.
  - intros _ _. split; simpl; assumption.
  - intros _ Hmiss. split; simpl.
    + intros r' [Hr' | ->%list_elem_of_singleton]%elem_of_app Hm.
      * apply register_fingerprint_mono, Hseen; assumption.
      * apply register_fingerprint_self, Hm.
    + intros i j ri rj Hij Hi Hj Hmi.
      apply lookup_snoc_Some in Hj as [[Hj Hj'] | [-> ->]].
      * apply lookup_snoc_Some in Hi as [[_ Hi'] | [-> _]]; [| lia].
        apply (Hpair i j ri rj); assumption.
      * apply lookup_snoc_Some in Hi as [[_ Hi'] | [-> _]]; [| lia].
        intros Heq. apply Hmiss. split; [congruence |]. rewrite <- Heq.
        apply Hseen; [| exact Hmi]. eapply list_elem_of_lookup_2, Hi'.
Qed.

Lemma seen_invariant_loop l : seen_invariant (dedup_loop l).
Proof.
  apply (dedup_loop_ind (fun _ st => seen_invariant st)).
  - split; simpl; [intros r Hr; inversion Hr | intros i j ri rj _ Hi; inversion Hi].
  - intros _ st r. apply seen_invariant_step.
Qed.

(** X8: two survivors at different positions never have the same matchable
    fingerprint. *)
Theorem survivors_distinct_fingerprint (records : list record) i j ri rj :
  i <> j ->
  (deduplicate_records records).1.1.1 !! i = Some ri ->
  (deduplicate_records records).1.1.1 !! j = Some rj ->
  matchable (create_fingerprint ri) = true ->
  create_fingerprint ri <> create_fingerprint rj.
Proof.
  unfold deduplicate_records, dedup_result. simpl.
  destruct (seen_invariant_loop (records_sorted records)) as [_ Hpair].
  intros Hij Hi Hj Hm.
  destruct (Nat.lt_total i j) as [Hlt | [-> | Hlt]]; [| congruence |].
  - apply (Hpair i j ri rj); assumption.
  - intros Heq.
    assert (Hmj : matchable (create_fingerprint rj) = true)
      by (rewrite <- Heq; exact Hm).
    exact (Hpair j i rj ri Hlt Hj Hi Hmj (eq_sym Heq)).
Qed.

Lemma clash_sym a b : clash a b -> clash b a.
Proof.
  intros [(Ha & Hb & Heq) | (Hm & Heq)]; [left | right].
  - repeat split; congruence.
  - split; congruence.
Qed.

Lemma clash_free_snoc l r :
  clash_free (l ++ [r])
  <-> clash_free l /\ Forall (fun x => ~ clash x r) l.
Proof.
  induction l as [|x l IH]; simpl.
  - split; [intros _; split; [exact I | constructor] | intros _; split; [constructor | exact I]].
  - rewrite Forall_app, Forall_singleton, IH, Forall_cons. tauto.
Qed.

Lemma clash_free_perm l l' : l ≡ₚ l' -> clash_free l -> clash_free l'.
Proof.
  induction 1 as [|x l l' Hp IH|x y l|l l' l'' _ IH1 _ IH2]; simpl.
  - auto.
  - intros [Hx Hl]. split; [rewrite <- Hp; exact Hx | apply IH, Hl].
  - intros [[Hyx Hy]%Forall_cons [Hx Hl]].
    split; [constructor; [intros Hc; apply Hyx, clash_sym, Hc | exact Hx] |].
    split; assumption.
  - auto.
Qed.

(** The survivors of a run do not match with each other. *)
Lemma loop_clash_free l :
  clash_free (unique_records (dedup_loop l)).
Proof.
  eapply proj1.
  apply (dedup_loop_ind (fun _ st =>
    clash_free (unique_records st)
    /\ (forall r, r ∈ unique_records st -> record_doi r <> [] ->
                  lower (record_doi r) ∈ seen_dois st)
    /\ (forall r, r ∈ unique_records st ->
                  matchable (create_fingerprint r) = true ->
                  create_fingerprint r ∈ seen_fingerprints st))).
  - split; [exact I |]. split; intros r Hr; inversion Hr.
  - intros _ st r (Hfree & Hd & Hf). apply dedup_step_cases; simpl.
    + intros _. auto.
    + intros _ _. split; [exact Hfree |]. split; [| exact Hf].
      intros r' Hr' Hne. apply register_doi_mono, Hd; assumption.
    + intros Hnd Hnf. split; [| split].
      * apply clash_free_snoc. split; [exact Hfree |].
        apply Forall_forall. intros x Hx [(Hxd & Hrd & Heq) | (Hm & Heq)].
        -- apply Hnd. split; [exact Hrd |]. rewrite <- Heq. apply Hd; assumption.
        -- apply Hnf. split; [congruence |]. rewrite <- Heq. apply Hf; assumption.
      * intros r' [Hr' | ->%list_elem_of_singleton]%elem_of_app Hne.
        -- apply register_doi_mono, Hd; assumption.
        -- apply register_doi_self, Hne.
      * intros r' [Hr' | ->%list_elem_of_singleton]%elem_of_app Hm.
        -- apply register_fingerprint_mono, Hf; assumption.
        -- apply register_fingerprint_self, Hm.
Qed.

Lemma register_doi_elem seen r x :
  x ∈ register_doi seen r ->
  x ∈ seen \/ (record_doi r <> [] /\ lower (record_doi r) = x).
Proof.
  unfold register_doi. case_bool_decide; [| auto].
  intros [Hx | ->%elem_of_singleton]%elem_of_union; auto.
Qed.

Lemma register_fingerprint_elem seen r x :
  x ∈ register_fingerprint seen r ->
  x ∈ seen \/ (matchable (create_fingerprint r) = true
               /\ create_fingerprint r = x).
Proof.
  unfold register_fingerprint. destruct (matchable _) eqn:Hm; [| auto].
  intros [Hx | ->%elem_of_singleton]%elem_of_union; auto.
Qed.

(** A list of records that do not match with each other passes the loop
    whole. *)
Lemma clean_pass l :
  clash_free l -> dedup_result (dedup_loop l) = (l, 0, 0, [])%nat.
Proof.
  intros Hfree. eapply proj1. revert Hfree.
  apply (dedup_loop_ind (fun l st =>
    clash_free l ->
    dedup_result st = (l, 0, 0, [])%nat
    /\ (forall x, x ∈ seen_dois st ->
          exists r, r ∈ l /\ record_doi r <> [] /\ lower (record_doi r) = x)
    /\ (forall x, x ∈ seen_fingerprints st ->
          exists r, r ∈ l /\ matchable (create_fingerprint r) = true
                    /\ create_fingerprint r = x))).
  - intros _. split; [reflexivity |]. split; intros x Hx; set_solver.
  - intros l' st r IH [Hfree Hr]%clash_free_snoc.
    destruct (IH Hfree) as ([= Hu Hdd Hdf Hdet] & Hd & Hf).
    rewrite Forall_forall in Hr.
    assert (Hnd : ~ doi_hit st r).
    { intros [Hne Hin]. destruct (Hd _ Hin) as (r' & Hr' & Hne' & Heq).
      apply (Hr r' Hr'). left. auto. }
    assert (Hnf : ~ fingerprint_hit st r).
    { intros [Hm Hin]. destruct (Hf _ Hin) as (r' & Hr' & Hm' & Heq).
      apply (Hr r' Hr'). right. auto. }
    rewrite dedup_step_kept by assumption. unfold dedup_result. simpl.
    rewrite Hu, Hdd, Hdf, Hdet. split; [reflexivity |]. split.
    + intros x [Hx | [Hne <-]]%register_doi_elem.
      * destruct (Hd x Hx) as (r' & Hr' & Hrest). exists r'.
        split; [apply elem_of_app; left; exact Hr' | exact Hrest].
      * exists r. split; [apply elem_of_app; right; constructor | auto].
    + intros x [Hx | [Hm <-]]%register_fingerprint_elem.
      * destruct (Hf x Hx) as (r' & Hr' & Hrest). exists r'.
        split; [apply elem_of_app; left; exact Hr' | exact Hrest].
      * exists r. split; [apply elem_of_app; right; constructor | auto].
Qed.

(** X9: a second pass removes nothing: deduplicating the survivors returns
    them all (in the order of their own completeness sort) and counts no
    duplicate. *)
Theorem second_pass_removes_nothing (records : list record) :
  deduplicate_records (deduplicate_records records).1.1.1
  = (records_sorted (deduplicate_records records).1.1.1, 0, 0, [])%nat.
Proof.
  set (survivors := (deduplicate_records records).1.1.1).
  unfold deduplicate_records at 1. apply clean_pass.
  apply (clash_free_perm survivors); [symmetry; apply records_sorted_perm |].
  apply loop_clash_free.
Qed.

(** X10: every record of the input is a survivor or is accounted for once in
    the provenance list, under its own source label: the survivors and the
    removed records make up the input, and the labels of the provenance list
    are those of the removed records, in the order of removal. *)
Theorem removed_records_accounted (records : list record) :
  exists removed : list record,
    (deduplicate_records records).1.1.1 ++ removed ≡ₚ records
    /\ (deduplicate_records records).2.*2 = source_db <$> removed.
Proof.
  unfold deduplicate_records, dedup_result. simpl.
  setoid_rewrite <- (records_sorted_perm records) at 2.
  apply (dedup_loop_ind (fun l st =>
    exists removed : list record,
      unique_records st ++ removed ≡ₚ l
      /\ (duplicate_details st).*2 = source_db <$> removed)).
  - exists []. split; reflexivity.
  - intros l st r (removed & Hp & Hd). apply dedup_step_cases; intros; simpl.
    + exists (removed ++ [r]). rewrite app_assoc, Hp, !fmap_app, Hd.
      split; reflexivity.
    + exists (removed ++ [r]). rewrite app_assoc, Hp, !fmap_app, Hd.
      split; reflexivity.
    + exists removed. split; [| exact Hd].
      rewrite <- Hp, <- !app_assoc. apply Permutation_app_head, Permutation_app_comm.
Qed.

(** X11: the provenance list names the method of each removal: it has as
    many ['DOI'] entries as DOI duplicates were counted, as many
    ['Fingerprint'] entries as fingerprint duplicates, and no other entry. *)
Theorem provenance_methods (records : list record) :
  let '(_, by_doi, by_fingerprint, details) := deduplicate_records records in
  length (filter (fun d => d.1 = py "DOI") details) = by_doi
  /\ length (filter (fun d => d.1 = py "Fingerprint") details) = by_fingerprint
  /\ Forall (fun d => d.1 = py "DOI" \/ d.1 = py "Fingerprint") details.
Proof.
  unfold deduplicate_records, dedup_result.
  apply (dedup_loop_ind (fun _ st =>
    length (filter (fun d => d.1 = py "DOI") (duplicate_details st))
      = duplicates_by_doi st
    /\ length (filter (fun d => d.1 = py "Fingerprint") (duplicate_details st))
       = duplicates_by_fingerprint st
    /\ Forall (fun d => d.1 = py "DOI" \/ d.1 = py "Fingerprint")
         (duplicate_details st))).
  - split; [reflexivity |]. split; [reflexivity | constructor].
  - intros _ st r (Hd & Hf & Hall). apply dedup_step_cases; intros; simpl.
    + rewrite !filter_app, !length_app, Hd, Hf.
      rewrite filter_cons_True by reflexivity.
      rewrite filter_cons_False by (simpl; intros Heq; vm_compute in Heq; discriminate Heq).
      simpl. split; [lia |]. split; [lia |].
      apply Forall_app. split; [exact Hall |]. constructor; [left; reflexivity | constructor].
    + rewrite !filter_app, !length_app, Hd, Hf.
      rewrite filter_cons_False by (simpl; intros Heq; vm_compute in Heq; discriminate Heq).
      rewrite filter_cons_True by reflexivity.
      simpl. split; [lia |]. split; [lia |].
      apply Forall_app. split; [exact Hall |]. constructor; [right; reflexivity | constructor].
    + auto.
Qed.

End MoreDedup.

(** ** More on the RIS parser *)

Section MoreRis.
Context `{Unicode}.

Lemma ris_step_inert st line : inert_line line -> ris_step st line = st.
Proof.
  unfold inert_line, ris_step.
  destruct (ris_line line) as [[tag value]|]; [| reflexivity].
  intros (HER & HTY & Hfield). destruct st as [R cur].
  unfold ris_tag_step. rewrite HER, HTY, Hfield. reflexivity.
Qed.

(** X12: a line that does not match the tag pattern, or whose tag is not in
    the tag table, changes nothing, wherever it stands in the input. *)
Theorem inert_lines_ignored (before after : list str) (line : str) :
  inert_line line ->
  parse_ris_lines (before ++ line :: after) = parse_ris_lines (before ++ after).
Proof.
  intros Hinert. unfold parse_ris_lines.
  rewrite !fold_left_app. simpl. rewrite (ris_step_inert _ _ Hinert).
  reflexivity.
Qed.

Lemma ris_line_cr line : ris_line (line ++ [13%N]) = ris_line line.
Proof. unfold ris_line, rstrip_by. rewrite rev_app_distr. reflexivity. Qed.

(** X13: carriage returns at the ends of the lines (CRLF files) make no
    difference to the records. *)
Theorem crlf_lines_same (lines : list str) :
  parse_ris_lines ((fun line => line ++ [13%N]) <$> lines)
  = parse_ris_lines lines.
Proof.
  unfold parse_ris_lines. f_equal.
  generalize (@nil record, ris_empty).
  induction lines as [|line lines IH]; intros st; simpl; [reflexivity |].
  unfold ris_step at 2 4. rewrite ris_line_cr. apply IH.
Qed.

Lemma finish_record_nonempty cur :
  ris_nonempty cur = true -> finish_record cur <> ∅.
Proof.
  unfold ris_nonempty, finish_record, join_into.
  destruct (AD_list cur); [intros _; apply insert_non_empty |].
  destruct (KW_list cur); [intros _; apply insert_non_empty |].
  destruct (AU_list cur); [intros _; apply insert_non_empty |].
  change (bool_decide (is_Some (@None (list str)))) with false.
  rewrite !orb_false_r.
  intros Hne. apply negb_true_iff, bool_decide_eq_false in Hne. exact Hne.
Qed.

Lemma save_record_nonempty R cur :
  Forall (fun r : record => r <> ∅) R ->
  Forall (fun r : record => r <> ∅) (save_record R cur).
Proof.
  intros HR. unfold save_record. destruct (ris_nonempty cur) eqn:Hne; [| exact HR].
  apply Forall_app. split; [exact HR |].
  constructor; [apply finish_record_nonempty, Hne | constructor].
Qed.

(** X14: the parser never emits an empty record: an ER line, a TY line or
    the end of the input with nothing collected adds nothing. *)
Theorem parsed_records_nonempty (lines : list str) :
  Forall (fun r : record => r <> ∅) (parse_ris_lines lines).
Proof.
  rewrite parse_ris_lines_unfold. apply save_record_nonempty.
  assert (Hgen : forall st,
            Forall (fun r : record => r <> ∅) st.1 ->
            Forall (fun r : record => r <> ∅) (fold_left ris_step lines st).1).
  { induction lines as [|line lines IH]; intros st Hst; simpl; [exact Hst |].
    apply IH. destruct st as [R cur]. destruct (is_boundary line) eqn:Hb.
    - rewrite ris_step_boundary by exact Hb. apply save_record_nonempty, Hst.
    - rewrite ris_step_records by exact Hb. exact Hst. }
  apply Hgen. constructor.
Qed.

Lemma extend_list_append l v values :
  extend_list (list_append l v) values = extend_list l (v :: values).
Proof.
  unfold list_append. destruct values as [|w values]; simpl; [reflexivity |].
  rewrite <- app_assoc. reflexivity.
Qed.

(** The effect of a line that is no boundary on the three working lists. *)
Lemma ris_tag_step_lists R cur tag value :
  tag_is tag "ER" = false -> tag_is tag "TY" = false ->
  AU_list (ris_tag_step (R, cur) tag value).2
    = (if tag_in tag ["AU"; "A1"; "A2"]%string
       then list_append (AU_list cur) value else AU_list cur)
  /\ KW_list (ris_tag_step (R, cur) tag value).2
     = (if tag_in tag ["KW"]%string
        then list_append (KW_list cur) value else KW_list cur)
  /\ AD_list (ris_tag_step (R, cur) tag value).2
     = (if tag_in tag ["AD"]%string
        then list_append (AD_list cur) value else AD_list cur).
Proof.
  intros HER HTY.
  destruct (tag_is tag "AU") eqn:HAU;
    [apply bool_decide_eq_true in HAU; subst tag; repeat split; reflexivity |].
  destruct (tag_is tag "A1") eqn:HA1;
    [apply bool_decide_eq_true in HA1; subst tag; repeat split; reflexivity |].
  destruct (tag_is tag "A2") eqn:HA2;
    [apply bool_decide_eq_true in HA2; subst tag; repeat split; reflexivity |].
  destruct (tag_is tag "KW") eqn:HKW;
    [apply bool_decide_eq_true in HKW; subst tag; repeat split; reflexivity |].
  destruct (tag_is tag "AD") eqn:HAD;
    [apply bool_decide_eq_true in HAD; subst tag; repeat split; reflexivity |].
  unfold ris_tag_step, tag_in. cbn [existsb].
  rewrite HER, HTY, HAU, HA1, HA2, HKW, HAD. cbn [orb].
  destruct (ris_field tag); [| repeat split; reflexivity].
  repeat match goal with
         | |- context [if ?b then _ else _] => destruct b
         | |- context [match search_year ?v with _ => _ end] =>
             destruct (search_year v)
         end; repeat split; reflexivity.
Qed.

Lemma ris_block_lists block R cur :
  Forall (fun l => is_boundary l = false) block ->
  AU_list (fold_left ris_step block (R, cur)).2
    = extend_list (AU_list cur) (tag_values ["AU"; "A1"; "A2"]%string block)
  /\ KW_list (fold_left ris_step block (R, cur)).2
     = extend_list (KW_list cur) (tag_values ["KW"]%string block)
  /\ AD_list (fold_left ris_step block (R, cur)).2
     = extend_list (AD_list cur) (tag_values ["AD"]%string block).
Proof.
  intros Hall. revert cur.
  induction Hall as [|line block Hb _ IH]; intros cur; [repeat split; reflexivity |].
  pose proof (ris_step_records R cur line Hb) as HR.
  cbn [fold_left tag_values]. unfold ris_step at 2 4 6. unfold ris_step in HR.
  destruct (ris_line line) as [[tag value]|] eqn:Hl; [| apply IH].
  destruct (not_boundary_tags _ _ _ Hb Hl) as [HER HTY].
  destruct (ris_tag_step_lists R cur tag value HER HTY) as (HAU & HKW & HAD).
  destruct (ris_tag_step (R, cur) tag value) as [R1 cur1].
  cbn [fst snd] in HR, HAU, HKW, HAD. subst R1.
  destruct (IH cur1) as (IAU & IKW & IAD). rewrite IAU, IKW, IAD, HAU, HKW, HAD.
  repeat split.
  - destruct (tag_in tag ["AU"; "A1"; "A2"]%string);
      [apply extend_list_append | reflexivity].
  - destruct (tag_in tag ["KW"]%string);
      [apply extend_list_append | reflexivity].
  - destruct (tag_in tag ["AD"]%string);
      [apply extend_list_append | reflexivity].
Qed.

(** The state in which the lines of a record begin, with its working
    lists. *)
Lemma record_lines_shape pre lines :
  record_lines pre lines ->
  exists cur0 block,
    fold_left ris_step lines (fold_left ris_step pre ([], ris_empty))
    = fold_left ris_step block (parse_ris_lines pre, cur0)
    /\ Forall (fun l => is_boundary l = false) block
    /\ AU_list cur0 = None /\ KW_list cur0 = None /\ AD_list cur0 = None
    /\ (forall v, fields cur0 !! py "year" = Some v -> False)
    /\ (forall names, tag_in (py "TY") names = false ->
          tag_values names lines = tag_values names block).
Proof.
  intros [(ty & block & -> & [v Hty] & Hblock) | [Hpre Hblock]].
  - exists (RisRecord {[py "doc_type" := VStr v]} None None None), block.
    simpl. rewrite parse_ris_lines_unfold.
    destruct (fold_left ris_step pre ([], ris_empty)) as [R0 c0]. simpl.
    unfold ris_step at 2. rewrite Hty. split; [reflexivity |].
    split; [exact Hblock |]. repeat (split; [reflexivity |]).
    split; [intros w Hw; rewrite lookup_singleton_ne in Hw by discriminate;
            discriminate |].
    intros names Hn. rewrite Hn. reflexivity.
  - exists ris_empty, lines. split; [| split; [exact Hblock |]].
    + f_equal. rewrite parse_ris_lines_unfold.
      destruct Hpre as [-> | (pre' & er & -> & [v Her])]; [reflexivity |].
      rewrite fold_left_app. simpl.
      destruct (fold_left ris_step pre' ([], ris_empty)) as [R c].
      unfold ris_step. rewrite Her. reflexivity.
    + repeat (split; [reflexivity |]).
      split; [intros w Hw; simpl in Hw; rewrite lookup_empty in Hw; discriminate |].
      intros names _. reflexivity.
Qed.

(** The record emitted when the lines of a record are closed. *)
Lemma record_emitted_from pre lines rest cur0 block :
  fold_left ris_step lines (fold_left ris_step pre ([], ris_empty))
  = fold_left ris_step block (parse_ris_lines pre, cur0) ->
  Forall (fun l => is_boundary l = false) block ->
  record_closed rest ->
  ris_nonempty (fold_left ris_step block (parse_ris_lines pre, cur0)).2 = true ->
  exists after,
    parse_ris_lines (pre ++ lines ++ rest)
    = parse_ris_lines pre
      ++ finish_record (fold_left ris_step block (parse_ris_lines pre, cur0)).2
      :: after.
Proof.
  intros Hrun Hblock Hrest Hne.
  pose proof (ris_block_records block (parse_ris_lines pre) cur0 Hblock) as HR.
  rewrite (parse_ris_lines_unfold (pre ++ lines ++ rest)).
  rewrite !fold_left_app, Hrun.
  destruct (fold_left ris_step block (parse_ris_lines pre, cur0))
    as [R cur] eqn:Hfold. simpl in HR, Hne |- *. subst R.
  destruct Hrest as [-> | (c & post & -> & Hc)].
  - simpl. unfold save_record. rewrite Hne. exists []. reflexivity.
  - simpl.
    destruct (parse_from_grows post (ris_step (parse_ris_lines pre, cur) c))
      as [extra ->].
    rewrite ris_step_boundary by exact Hc.
    unfold save_record at 1. rewrite Hne.
    exists extra. rewrite <- app_assoc. reflexivity.
Qed.

Lemma finish_record_lists cur :
  (forall parts, AU_list cur = Some parts ->
     finish_record cur !! py "authors" = Some (VStr (join (py ";") parts)))
  /\ (forall parts, KW_list cur = Some parts ->
       finish_record cur !! py "keywords" = Some (VStr (join (py "; ") parts)))
  /\ (forall parts, AD_list cur = Some parts ->
       finish_record cur !! py "affiliations"
       = Some (VStr (join (py "; ") parts))).
Proof.
  unfold finish_record, join_into. repeat split; intros parts ->.
  - destruct (AD_list cur), (KW_list cur);
      rewrite ?lookup_insert_ne by discriminate; apply lookup_insert_eq.
  - destruct (AD_list cur);
      rewrite ?lookup_insert_ne by discriminate; apply lookup_insert_eq.
  - apply lookup_insert_eq.
Qed.

(** X15: the multi-valued tags accumulate: in the record emitted for the
    lines of one record, [authors] is the values of its AU, A1 and A2 lines,
    in the order of the lines, joined by [;], and [keywords] and
    [affiliations] are the values of its KW and of its AD lines joined by
    [; ]. *)
Theorem ris_lists_accumulate (pre lines rest : list str) names key sep :
  record_lines pre lines -> record_closed rest ->
  (names, key, sep) ∈ list_fields ->
  tag_values names lines <> [] ->
  exists rec after,
    parse_ris_lines (pre ++ lines ++ rest)
    = parse_ris_lines pre ++ rec :: after
    /\ rec !! py key = Some (VStr (join (py sep) (tag_values names lines))).
Proof.
  intros Hlines Hrest Hin Hvalues.
  destruct (record_lines_shape pre lines Hlines)
    as (cur0 & block & Hrun & Hblock & HAU & HKW & HAD & _ & Hsame).
  destruct (ris_block_lists block (parse_ris_lines pre) cur0 Hblock)
    as (BAU & BKW & BAD).
  rewrite HAU in BAU. rewrite HKW in BKW. rewrite HAD in BAD.
  set (cur := (fold_left ris_step block (parse_ris_lines pre, cur0)).2) in *.
  destruct (finish_record_lists cur) as (FAU & FKW & FAD).
  assert (Hext : forall vs, vs <> [] -> extend_list None vs = Some vs).
  { intros [|v vs] Hvs; [congruence | reflexivity]. }
  assert (Hemit : forall list_of : ris_record -> option (list str),
            (forall c, is_Some (list_of c) -> ris_nonempty c = true) ->
            list_of cur = Some (tag_values names lines) ->
            exists after,
              parse_ris_lines (pre ++ lines ++ rest)
              = parse_ris_lines pre ++ finish_record cur :: after).
  { intros list_of Hnon Hl.
    apply (record_emitted_from pre lines rest cur0 block Hrun Hblock Hrest).
    apply (Hnon cur). rewrite Hl. eauto. }
  assert (Hnon : forall list_of : ris_record -> option (list str),
            (list_of = AU_list \/ list_of = KW_list \/ list_of = AD_list) ->
            forall c, is_Some (list_of c) -> ris_nonempty c = true).
  { intros list_of Hof c [l Hl]. unfold ris_nonempty.
    destruct Hof as [-> | [-> | ->]]; rewrite Hl;
      change (bool_decide (is_Some (Some l))) with true;
      rewrite ?orb_true_r; reflexivity. }
  unfold list_fields in Hin.
  apply elem_of_cons in Hin as [[= -> -> ->] | Hin];
    [| apply elem_of_cons in Hin as [[= -> -> ->] | Hin];
       [| apply elem_of_cons in Hin as [[= -> -> ->] | Hin];
          [| inversion Hin]]].
  - pose proof (Hsame ["AU"; "A1"; "A2"]%string eq_refl) as Hs.
    rewrite Hs in Hvalues |- *. rewrite (Hext _ Hvalues) in BAU.
    destruct (Hemit AU_list) as [after Hparse];
      [apply Hnon; auto | rewrite Hs; exact BAU |].
    exists (finish_record cur), after. split; [exact Hparse | apply FAU, BAU].
  - pose proof (Hsame ["KW"]%string eq_refl) as Hs.
    rewrite Hs in Hvalues |- *. rewrite (Hext _ Hvalues) in BKW.
    destruct (Hemit KW_list) as [after Hparse];
      [apply Hnon; auto | rewrite Hs; exact BKW |].
    exists (finish_record cur), after. split; [exact Hparse | apply FKW, BKW].
  - pose proof (Hsame ["AD"]%string eq_refl) as Hs.
    rewrite Hs in Hvalues |- *. rewrite (Hext _ Hvalues) in BAD.
    destruct (Hemit AD_list) as [after Hparse];
      [apply Hnon; auto | rewrite Hs; exact BAD |].
    exists (finish_record cur), after. split; [exact Hparse | apply FAD, BAD].
Qed.

Lemma search_year_token v y : search_year v = Some y -> is_year_token y.
Proof.
  induction v as [|a v IH]; simpl; [discriminate |].
  destruct v as [|b [|c [|d v']]]; try discriminate.
  destruct (_ && is_digit c && is_digit d) eqn:Hm; [| exact IH].
  intros [= <-].
  apply andb_true_iff in Hm as [Hm Hd]. apply andb_true_iff in Hm as [Hm Hc].
  exists c, d. split; [| split; assumption].
  apply orb_true_iff in Hm as [Hm | Hm];
    apply andb_true_iff in Hm as [->%N.eqb_eq ->%N.eqb_eq]; auto.
Qed.

Lemma year_tags_only :
  Forall (fun kv : str * str =>
            kv.2 = py "year" ->
            tag_in kv.1 ["PY"; "Y1"; "DA"; "Y2"]%string = true)
         ris_mapping.
Proof. apply (bool_decide_unpack _). vm_compute. exact I. Qed.

Lemma ris_field_year tag :
  ris_field tag = Some (py "year") ->
  tag_in tag ["PY"; "Y1"; "DA"; "Y2"]%string = true.
Proof.
  unfold ris_field. destruct (List.find _ _) as [[t f]|] eqn:Hfind; [| discriminate].
  intros [= Hf]. apply find_some in Hfind as [Hin Ht].
  apply bool_decide_eq_true in Ht. simpl in Ht, Hf. subst t.
  pose proof year_tags_only as Hall. rewrite Forall_forall in Hall.
  apply (Hall (tag, f)); [apply list_elem_of_In, Hin | exact Hf].
Qed.

Lemma year_well_formed_insert (f : record) y :
  is_year_token y -> year_well_formed f ->
  year_well_formed (<[py "year" := VStr y]> f).
Proof.
  intros Hy _ v. rewrite lookup_insert_eq. intros [= <-]. eauto.
Qed.

Lemma year_well_formed_other (f : record) key v :
  key <> py "year" -> year_well_formed f ->
  year_well_formed (<[key := v]> f).
Proof.
  intros Hk Hf w. rewrite lookup_insert_ne by exact Hk. apply Hf.
Qed.

(** A line that is no boundary keeps the year of the working record well
    formed. *)
Lemma ris_tag_step_year R cur tag value :
  tag_is tag "ER" = false -> tag_is tag "TY" = false ->
  year_well_formed (fields cur) ->
  year_well_formed (fields (ris_tag_step (R, cur) tag value).2).
Proof.
  intros HER HTY Hcur. unfold ris_tag_step. rewrite HER, HTY.
  destruct (ris_field tag) as [field|] eqn:Hfield; [| exact Hcur].
  destruct (bool_decide (field = [])); [exact Hcur |].
  destruct (tag_in tag ["AU"; "A1"; "A2"]%string); [exact Hcur |].
  destruct (tag_is tag "KW"); [exact Hcur |].
  destruct (tag_is tag "AD"); [exact Hcur |].
  destruct (tag_in tag ["PY"; "Y1"; "DA"; "Y2"]%string) eqn:Hy.
  { destruct (search_year value) as [y|] eqn:Hs; [| exact Hcur].
    apply year_well_formed_insert; [eapply search_year_token, Hs | exact Hcur]. }
  destruct (tag_is tag "SN").
  { cbv zeta. destruct (negb _); [| exact Hcur].
    apply year_well_formed_other; [discriminate | exact Hcur]. }
  destruct (bool_decide (fields cur !! field = None)); [| exact Hcur].
  apply year_well_formed_other; [| exact Hcur].
  intros ->. apply ris_field_year in Hfield. congruence.
Qed.

Lemma finish_record_year cur :
  finish_record cur !! py "year" = fields cur !! py "year".
Proof.
  unfold finish_record, join_into.
  destruct (AD_list cur), (KW_list cur), (AU_list cur);
    rewrite ?lookup_insert_ne by discriminate; reflexivity.
Qed.

Lemma ris_step_year st line :
  Forall year_well_formed st.1 /\ year_well_formed (fields st.2) ->
  Forall year_well_formed (ris_step st line).1
  /\ year_well_formed (fields (ris_step st line).2).
Proof.
  destruct st as [R cur]. simpl. intros [HR Hcur].
  assert (Hsave : Forall year_well_formed (save_record R cur)).
  { unfold save_record. destruct (ris_nonempty cur); [| exact HR].
    apply Forall_app. split; [exact HR |]. constructor; [| constructor].
    intros v. rewrite finish_record_year. apply Hcur. }
  destruct (is_boundary line) eqn:Hb.
  - rewrite ris_step_boundary by exact Hb. split; [exact Hsave |].
    unfold is_boundary in Hb. unfold ris_step.
    destruct (ris_line line) as [[tag value]|]; [| discriminate].
    unfold ris_tag_step. destruct (tag_is tag "ER").
    + intros v Hv. simpl in Hv. rewrite lookup_empty in Hv. discriminate.
    + destruct (tag_is tag "TY"); [| discriminate].
      intros v Hv. simpl in Hv.
      rewrite lookup_singleton_ne in Hv by discriminate. discriminate.
  - rewrite ris_step_records by exact Hb. split; [exact HR |].
    unfold ris_step. destruct (ris_line line) as [[tag value]|] eqn:Hl;
      [| exact Hcur].
    destruct (not_boundary_tags _ _ _ Hb Hl) as [HER HTY].
    apply ris_tag_step_year; assumption.
Qed.

(** X16: the year of every parsed record, when it has one, is a token that
    the year pattern matched: 19 or 20 followed by two digits, whatever the
    PY, Y1, DA and Y2 lines held around it. *)
Theorem parsed_year_well_formed (lines : list str) :
  Forall year_well_formed (parse_ris_lines lines).
Proof.
  rewrite parse_ris_lines_unfold.
  assert (Hgen : forall st,
            Forall year_well_formed st.1 /\ year_well_formed (fields st.2) ->
            Forall year_well_formed (fold_left ris_step lines st).1
            /\ year_well_formed (fields (fold_left ris_step lines st).2)).
  { induction lines as [|line lines IH]; intros st Hst; simpl; [exact Hst |].
    apply IH, ris_step_year, Hst. }
  destruct (Hgen ([], ris_empty)) as [HR Hcur].
  { split; [constructor |]. intros v Hv. simpl in Hv.
    rewrite lookup_empty in Hv. discriminate. }
  unfold save_record. destruct (ris_nonempty _); [| exact HR].
  apply Forall_app. split; [exact HR |]. constructor; [| constructor].
  intros v. rewrite finish_record_year. apply Hcur.
Qed.

End MoreRis.

(** ** More on the Scopus table *)

Section MoreConvert.
Context `{Unicode}.

Lemma column_order_NoDup : NoDup column_order.
Proof. apply (bool_decide_unpack _). vm_compute. exact I. Qed.

(** Looking up every key of a dict, in the order of its keys, gives its
    values. *)
Lemma item_zip_self (keys : list str) (vals : list value) :
  NoDup keys -> length keys = length vals ->
  (fun c => default VNaN (item (zip keys vals) c)) <$> keys = vals.
Proof.
  intros Hnd. revert vals.
  induction Hnd as [|k keys Hk Hnd IH]; intros [|v vals] Hlen; try discriminate;
    [reflexivity |].
  simpl. f_equal.
  - unfold item. simpl. rewrite bool_decide_true by reflexivity. reflexivity.
  - etransitivity; [| apply (IH vals); simpl in Hlen; lia].
    apply list_fmap_ext. intros i c Hc. unfold item. simpl.
    rewrite bool_decide_false; [reflexivity |].
    intros <-. apply Hk. eapply list_elem_of_lookup_2, Hc.
Qed.

Lemma dict_row (d : list (str * value)) :
  d.*1 = column_order ->
  (fun c => default VNaN (item d c)) <$> column_order = d.*2.
Proof.
  intros Hk.
  transitivity ((fun c => default VNaN (item (zip column_order d.*2) c))
                  <$> column_order).
  - rewrite <- Hk, zip_fst_snd. reflexivity.
  - apply item_zip_self; [apply column_order_NoDup |].
    rewrite <- Hk, !length_fmap. reflexivity.
Qed.

Lemma dicts_rows (dicts : list (list (str * value))) :
  dicts <> [] -> Forall (fun d => d.*1 = column_order) dicts ->
  rows (DataFrame_of_dicts dicts) = (fun d => d.*2) <$> dicts.
Proof.
  intros Hne Hall. pose proof (dicts_columns dicts Hne Hall) as Hc.
  unfold DataFrame_of_dicts in *. cbn [rows columns] in *. rewrite Hc.
  apply list_fmap_ext. intros i d Hd. apply dict_row.
  rewrite Forall_forall in Hall. apply Hall. eapply list_elem_of_lookup_2, Hd.
Qed.

(** X17: the column selection loses and reorders nothing: for one or more
    records the table has the columns of [column_order], and its row [i]
    holds the values of the dict built for the record at position [i], in
    the order of the dict. *)
Theorem scopus_table_rows (records : list record) :
  records <> [] ->
  convert_to_scopus_format records
  = Some (MkDataFrame column_order
            (imap (fun i rec => (scopus_rec i rec).*2) records)).
Proof.
  intros Hne.
  assert (Hne' : imap scopus_rec records <> [])
    by (destruct records; [congruence | discriminate]).
  unfold convert_to_scopus_format, select_columns.
  rewrite (dicts_columns _ Hne' (scopus_records_keys records)).
  rewrite column_order_present. do 2 f_equal.
  rewrite (dicts_rows _ Hne' (scopus_records_keys records)).
  rewrite <- list_fmap_compose, fmap_imap.
  apply imap_ext. intros i r _. cbn [compose].
  apply item_zip_self; [apply column_order_NoDup |].
  rewrite <- (scopus_rec_keys i r), !length_fmap. reflexivity.
Qed.

Lemma py_inj s1 s2 : py s1 = py s2 -> s1 = s2.
Proof.
  unfold py. intros Heq.
  rewrite <- (string_of_list_ascii_of_string s1),
          <- (string_of_list_ascii_of_string s2).
  f_equal. revert Heq.
  generalize (list_ascii_of_string s1) (list_ascii_of_string s2).
  induction l as [|a l IH]; intros [|b l']; simpl; try discriminate;
    [reflexivity |].
  intros [= Hab Hl]. f_equal; [| apply IH, Hl].
  rewrite <- (ascii_N_embedding a), <- (ascii_N_embedding b), Hab. reflexivity.
Qed.

Lemma decimal_inj n m : decimal n = decimal m -> n = m.
Proof.
  unfold decimal. intros Heq%py_inj.
  apply Unsigned.to_uint_inj.
  assert (Hs : Some (N.to_uint n) = Some (N.to_uint m)).
  { rewrite <- !NilEmpty.usu, Heq. reflexivity. }
  injection Hs. auto.
Qed.

Lemma scopus_rec_eid i rec :
  last (scopus_rec i rec).*2
  = Some (VStr (py "2-s2.0-" ++ decimal (85000000000 + N.of_nat i))).
Proof. unfold scopus_rec. destruct (page_fields rec). reflexivity. Qed.

(** X18: the EID of row [i] is ['2-s2.0-'] followed by 85000000000 + i in
    decimal, and no two rows of a table have the same EID. *)
Theorem scopus_eids_distinct (records : list record) df i j row_i row_j :
  convert_to_scopus_format records = Some df ->
  rows df !! i = Some row_i -> rows df !! j = Some row_j ->
  last row_i = Some (VStr (py "2-s2.0-" ++ decimal (85000000000 + N.of_nat i)))
  /\ (i <> j -> last row_i <> last row_j).
Proof.
  intros Hdf Hi Hj.
  assert (Hne : records <> []) by (intros ->; discriminate Hdf).
  rewrite (scopus_table_rows records Hne) in Hdf. injection Hdf as <-.
  cbn [rows] in Hi, Hj.
  rewrite list_lookup_imap in Hi, Hj.
  destruct (records !! i) as [ri|]; [| discriminate].
  destruct (records !! j) as [rj|]; [| discriminate].
  injection Hi as <-. injection Hj as <-.
  rewrite !scopus_rec_eid. split; [reflexivity |].
  intros Hij [= Heq]. apply decimal_inj in Heq. lia.
Qed.

(** X19: the Year cell (column 4) of every row is empty or a token that the
    year pattern matched, whatever the year field of the record held. *)
Theorem scopus_year_cells (records : list record) df row v :
  convert_to_scopus_format records = Some df ->
  row ∈ rows df -> row !! 4%nat = Some v ->
  v = VStr [] \/ exists y, v = VStr y /\ is_year_token y.
Proof.
  intros Hdf Hrow Hv.
  assert (Hne : records <> []) by (intros ->; discriminate Hdf).
  rewrite (scopus_table_rows records Hne) in Hdf. injection Hdf as <-.
  cbn [rows] in Hrow.
  apply elem_of_lookup_imap in Hrow as (i & r & -> & _).
  unfold scopus_rec in Hv. destruct (page_fields r). cbn in Hv.
  injection Hv as <-. unfold year_int.
  destruct (truthy _); [| left; reflexivity].
  destruct (search_year _) as [y|] eqn:Hs; [| left; reflexivity].
  right. exists y. split; [reflexivity | eapply search_year_token, Hs].
Qed.

End MoreConvert.

(** ** Pages, fingerprints and the ingestion loop *)

Section MorePipeline.
Context `{Unicode}.

Lemma split_on_no_sep sep s : sep ∉ s -> split_on sep s = [s].
Proof.
  induction s as [|c s IH]; intros Hs; simpl; [reflexivity |].
  apply not_elem_of_cons in Hs as [Hc Hs].
  rewrite (proj2 (N.eqb_neq c sep)) by congruence. rewrite IH by exact Hs.
  reflexivity.
Qed.

Lemma split_on_first sep a b :
  sep ∉ a -> split_on sep (a ++ sep :: b) = a :: split_on sep b.
Proof.
  induction a as [|c a IH]; intros Ha; simpl.
  - rewrite N.eqb_refl. reflexivity.
  - apply not_elem_of_cons in Ha as [Hc Ha].
    rewrite (proj2 (N.eqb_neq c sep)) by congruence. rewrite IH by exact Ha.
    reflexivity.
Qed.

Lemma contains_middle c a b : contains c (a ++ c :: b) = true.
Proof.
  unfold contains. rewrite existsb_app. simpl. rewrite N.eqb_refl.
  rewrite orb_true_r. reflexivity.
Qed.

(** X20: when a record has no page start of its own, a page range
    ['a-b'] with one hyphen gives the stripped [a] as Page start and the
    stripped [b] as Page end. *)
Theorem page_range_split (rec : record) (a b : str) :
  has_field rec "page_start" = false ->
  rec !! py "pages" = Some (VStr (a ++ 45%N :: b)) ->
  45%N ∉ a -> 45%N ∉ b ->
  page_fields rec = (VStr (strip a), VStr (strip b)).
Proof.
  intros Hstart Hpages Ha Hb. unfold page_fields, get, has_field in *.
  rewrite Hpages.
  assert (Hps : por match rec !! py "page_start" with
                    | Some v => v
                    | None => empty_str
                    end empty_str = empty_str).
  { unfold por. destruct (rec !! py "page_start") as [v|]; [| reflexivity].
    rewrite Hstart. reflexivity. }
  rewrite Hps.
  assert (Ht : truthy (VStr (a ++ 45%N :: b)) = true) by (destruct a; reflexivity).
  assert (Hpor : por (VStr (a ++ 45%N :: b)) empty_str = VStr (a ++ 45%N :: b))
    by (unfold por; rewrite Ht; reflexivity).
  rewrite Hpor, Ht. cbn [truthy empty_str negb andb to_str].
  rewrite contains_middle, split_on_first by exact Ha.
  rewrite split_on_no_sep by exact Hb. reflexivity.
Qed.

(** X21: a fingerprint takes part in the matching exactly when the title
    prefix, the first-author key and the year prefix have nine characters or
    more between them; the title alone is not required. *)
Theorem fingerprint_matchable_iff (r : record) :
  matchable (create_fingerprint r) = true
  <-> (9 <= length (take 50 (normalize_text (get r "title" (VStr []))))
          + length (first_author_key (por (get r "authors" (VStr [])) (VStr [])))
          + length (take 4 (to_str (por (get r "year" (VStr [])) (VStr [])))))%nat.
Proof.
  unfold matchable, create_fingerprint. cbv zeta.
  rewrite Nat.ltb_lt, !length_app.
  change (length (py "|")) with 1%nat. lia.
Qed.

Lemma blank_record_no_signal r : blank_record r -> no_signal r.
Proof.
  intros (Hd & Ht & Ha & Hy). unfold no_signal, record_doi, create_fingerprint, get.
  rewrite Hd, Ht, Ha, Hy. split; reflexivity.
Qed.

Lemma no_signal_kept_loop l :
  filter no_signal (unique_records (dedup_loop l)) = filter no_signal l.
Proof.
  apply (dedup_loop_ind (fun l st =>
           filter no_signal (unique_records st) = filter no_signal l)).
  - reflexivity.
  - intros l' st r IH. rewrite filter_app.
    apply dedup_step_cases; simpl.
    + intros [Hd _]. rewrite filter_cons_False, filter_nil, app_nil_r;
        [exact IH | intros [Hn _]; congruence].
    + intros _ [Hm _]. rewrite filter_cons_False, filter_nil, app_nil_r;
        [exact IH | intros [_ Hn]; congruence].
    + intros _ _. rewrite filter_app, IH. reflexivity.
Qed.

(** X22: a record that has none of the keys [doi], [title], [authors] and
    [year] (a row of a file whose headers were not recognised, say) is never
    removed: it is among the survivors whatever else the input holds. *)
Theorem blank_records_survive (records : list record) (r : record) :
  r ∈ records -> blank_record r ->
  r ∈ (deduplicate_records records).1.1.1.
Proof.
  intros Hin Hblank. apply blank_record_no_signal in Hblank.
  unfold deduplicate_records, dedup_result. simpl.
  assert (Hf : r ∈ filter no_signal (unique_records
                 (dedup_loop (records_sorted records)))).
  { rewrite no_signal_kept_loop. apply list_elem_of_filter.
    split; [exact Hblank |]. rewrite records_sorted_perm. exact Hin. }
  apply list_elem_of_filter in Hf as [_ Hf]. exact Hf.
Qed.

Lemma source_db_tagged db rec :
  source_db (<[py "_source_db" := VStr db]> rec) = VStr db.
Proof. unfold source_db, get. rewrite lookup_insert_eq. reflexivity. Qed.

(** X23: after the ingestion loop of [main], every entry of the provenance
    list carries the source label of one of the files: a removed record is
    never reported under the fallback label ['Unknown'] unless a file was
    given that label. *)
Theorem provenance_labels_from_files (files : list (str * list record)) :
  Forall (fun d => exists db, d.2 = VStr db /\ db ∈ files.*1)
    (deduplicate_records (all_records files)).2.
Proof.
  unfold deduplicate_records, dedup_result. simpl.
  assert (Hin : Forall (fun r => exists db, source_db r = VStr db /\ db ∈ files.*1)
                  (records_sorted (all_records files))).
  { rewrite records_sorted_perm. apply Forall_forall. intros r Hr.
    unfold all_records in Hr. apply list_elem_of_bind in Hr as ([db recs] & Hr & Hf).
    unfold tag_records in Hr. simpl in Hr.
    apply list_elem_of_fmap in Hr as (r0 & -> & _).
    exists db. split; [apply source_db_tagged |].
    apply list_elem_of_fmap. exists (db, recs). split; [reflexivity | exact Hf]. }
  revert Hin. generalize (records_sorted (all_records files)). intros l.
  apply (dedup_loop_ind (fun l st =>
    Forall (fun r => exists db, source_db r = VStr db /\ db ∈ files.*1) l ->
    Forall (fun d => exists db, d.2 = VStr db /\ db ∈ files.*1)
      (duplicate_details st))).
  - intros _. constructor.
  - intros l' st r IH [Hl Hr%Forall_inv]%Forall_app.
    specialize (IH Hl).
    apply dedup_step_cases; intros; simpl; try exact IH;
      (apply Forall_app; split; [exact IH |]; constructor; [exact Hr | constructor]).
Qed.

End MorePipeline.

(** ** Instances of the further theorems *)

Lemma normalize_doi_bare_witness :
  @normalize_doi Latin.latin (VStr MoreSample.padded_doi)
  = strip MoreSample.padded_doi.
Proof.
  apply (@normalize_doi_bare Latin.latin MoreSample.padded_doi).
  repeat constructor; vm_compute; reflexivity.
Defined.

Lemma survivors_distinct_fingerprint_witness :
  @create_fingerprint Latin.latin Sample.muller_a
  <> @create_fingerprint Latin.latin Sample.cafe_a.
Proof.
  apply (@survivors_distinct_fingerprint Latin.latin
           [Sample.cafe_a; Sample.muller_a] 0 1).
  - lia.
  - vm_compute. reflexivity.
  - vm_compute. reflexivity.
  - vm_compute. reflexivity.
Defined.

Lemma inert_lines_ignored_witness :
  @parse_ris_lines Latin.latin MoreSample.ris_with_noise
  = @parse_ris_lines Latin.latin
      (py <$> ["TY  - JOUR"; "TI  - A Study"]%string).
Proof.
  apply (@inert_lines_ignored Latin.latin [py "TY  - JOUR"]
           [py "TI  - A Study"] (py "this line has no tag")).
  vm_compute. exact I.
Defined.

Lemma ris_lists_accumulate_witness :
  exists rec after,
    @parse_ris_lines Latin.latin ([] ++ MoreSample.ris_three_authors ++ [])
    = @parse_ris_lines Latin.latin [] ++ rec :: after
    /\ rec !! py "authors" = Some (VStr (py "Smith, J;Doe, K;Roe, L")).
Proof.
  assert (Hlines : record_lines [] MoreSample.ris_three_authors).
  { left. eexists _, _. split; [reflexivity |]. split.
    - eexists. vm_compute. reflexivity.
    - repeat constructor; vm_compute; reflexivity. }
  assert (Hclosed : record_closed []) by (left; reflexivity).
  apply (@ris_lists_accumulate Latin.latin [] MoreSample.ris_three_authors []
           ["AU"; "A1"; "A2"]%string "authors" ";" Hlines Hclosed).
  - left.
  - vm_compute. discriminate.
Defined.

Lemma scopus_table_rows_witness :
  @convert_to_scopus_format Latin.latin [Sample.first_copy]
  = Some (MkDataFrame column_order
            (imap (fun i rec => (@scopus_rec Latin.latin i rec).*2)
               [Sample.first_copy])).
Proof.
  apply (@scopus_table_rows Latin.latin [Sample.first_copy]). discriminate.
Defined.

Lemma scopus_eids_distinct_witness :
  exists row_0 row_1 : list value,
    last row_0 = Some (VStr (py "2-s2.0-" ++ decimal (85000000000 + N.of_nat 0)))
    /\ (0%nat <> 1%nat -> last row_0 <> last row_1).
Proof.
  eexists _, _.
  eapply (@scopus_eids_distinct Latin.latin
            [Sample.first_copy; Sample.other_work] _ 0 1).
  - vm_compute. reflexivity.
  - vm_compute. reflexivity.
  - vm_compute. reflexivity.
Defined.

Lemma scopus_year_cells_witness :
  VStr (py "2020") = VStr []
  \/ exists y, VStr (py "2020") = VStr y /\ @is_year_token Latin.latin y.
Proof.
  eapply (@scopus_year_cells Latin.latin [MoreSample.with_year_text]).
  - vm_compute. reflexivity.
  - cbn [rows]. apply list_elem_of_here.
  - vm_compute. reflexivity.
Defined.

Lemma page_range_split_witness :
  @page_fields MoreSample.with_page_range = (VStr (py "12"), VStr (py "34")).
Proof.
  apply (page_range_split MoreSample.with_page_range (py "12 ") (py " 34")).
  - vm_compute. reflexivity.
  - vm_compute. reflexivity.
  - apply (bool_decide_unpack _). vm_compute. exact I.
  - apply (bool_decide_unpack _). vm_compute. exact I.
Defined.

Lemma blank_records_survive_witness :
  Sample.blank_a
  ∈ (@deduplicate_records Latin.latin
       [Sample.blank_a; Sample.first_copy]).1.1.1.
Proof.
  apply (@blank_records_survive Latin.latin).
  - apply list_elem_of_here.
  - repeat split; vm_compute; reflexivity.
Defined.

(** ** The same work under different spellings *)

(** A property of all code points below 880 can be checked by running
    through them. *)
Lemma table_forall (P : N -> bool) :
  forallb P (N.of_nat <$> seq 0 880) = true ->
  forall c, (c < 880)%N -> P c = true.
Proof.
  intros Hall c Hc. rewrite forallb_forall in Hall. apply Hall.
  apply in_map_iff. exists (N.to_nat c). split; [apply N2Nat.id |].
  apply in_seq. lia.
Qed.

Lemma table_char_bound c : table_char c = true -> (c < 880)%N.
Proof.
  unfold table_char, in_range.
  rewrite orb_true_iff, andb_true_iff, N.ltb_lt, !N.leb_le. lia.
Qed.

Tactic Notation "table_check" constr(P) "at" constr(c) "by" constr(Hb)
    "as" ident(Hp) :=
  assert (Hp : P c = true)
    by (apply (table_forall P); [vm_compute; reflexivity | exact Hb]);
  cbv beta in Hp.

(** Facts of the table, each checked on all its code points. *)
Lemma table_lower_char c :
  table_char c = true -> table_char (Latin.lower_char c) = true.
Proof.
  intros Hc.
  table_check (fun c => negb (table_char c)
                                || table_char (Latin.lower_char c))
    at c by (table_char_bound c Hc) as Hp.
  rewrite Hc in Hp. exact Hp.
Qed.

Lemma table_base_letter c :
  table_char c = true ->
  forallb (fun d => (d <? 256)%N) (base_letter c) = true.
Proof.
  intros Hc.
  table_check (fun c => negb (table_char c)
           || forallb (fun d => (d <? 256)%N) (base_letter c))
    at c by (table_char_bound c Hc) as Hp.
  rewrite Hc in Hp. exact Hp.
Qed.

Lemma table_space c :
  table_char c = true -> is_space c = true ->
  Latin.lower_char c = c /\ base_letter c = [c] /\ table_word c = false.
Proof.
  intros Hc Hs.
  table_check (fun c => negb (table_char c) || negb (is_space c)
           || ((Latin.lower_char c =? c)%N
               && bool_decide (base_letter c = [c])
               && negb (table_word c)))
    at c by (table_char_bound c Hc) as Hp.
  rewrite Hc, Hs in Hp. simpl in Hp.
  apply andb_true_iff in Hp as [Hp Hw]. apply andb_true_iff in Hp as [Hl Hb].
  apply N.eqb_eq in Hl. apply negb_true_iff in Hw.
  apply bool_decide_eq_true in Hb. auto.
Qed.

Lemma ascii_lower_char_facts c :
  is_space (ascii_lower_char c) = is_space c
  /\ ((ascii_lower_char c =? 59)%N = (c =? 59)%N)
  /\ ((ascii_lower_char c =? 44)%N = (c =? 44)%N).
Proof.
  unfold ascii_lower_char. destruct (in_range 65 90 c) eqn:Hr; [| auto].
  assert (Hc : (c < 880)%N).
  { unfold in_range in Hr. apply andb_true_iff in Hr as [_ Hr].
    apply N.leb_le in Hr. lia. }
  table_check (fun c => negb (in_range 65 90 c)
           || (eqb (is_space (c + 32)) (is_space c)
               && eqb (c + 32 =? 59)%N (c =? 59)%N
               && eqb (c + 32 =? 44)%N (c =? 44)%N))
    at c by Hc as Hp.
  rewrite Hr in Hp. simpl in Hp.
  apply andb_true_iff in Hp as [Hp H3]. apply andb_true_iff in Hp as [H1 H2].
  apply eqb_prop in H1, H2, H3. auto.
Qed.

Section Tokens.
Context (sep : N -> bool).

Lemma tokens_all_sep k : Forall (fun c => sep c = true) k -> tokens sep k = [].
Proof. induction 1 as [|c k Hc _ IH]; simpl; [reflexivity |]. rewrite Hc. exact IH. Qed.

Lemma tokens_app_sep_l k y :
  Forall (fun c => sep c = true) k -> tokens sep (k ++ y) = tokens sep y.
Proof. induction 1 as [|c k Hc _ IH]; simpl; [reflexivity |]. rewrite Hc. exact IH. Qed.

Lemma tokens_app_sep_r k y :
  Forall (fun c => sep c = true) k -> tokens sep (y ++ k) = tokens sep y.
Proof.
  intros Hk. induction y as [|c y IH]; [apply tokens_all_sep, Hk |].
  cbn [app tokens]. destruct (sep c); [exact IH |].
  destruct y as [|d y].
  - cbn [app]. destruct Hk as [|e k He Hk]; [reflexivity |].
    rewrite He. rewrite (tokens_all_sep (e :: k)); [reflexivity |].
    constructor; assumption.
  - cbn [app] in *. rewrite IH. reflexivity.
Qed.

Lemma tokens_words_nonempty s : Forall (fun w : str => w <> []) (tokens sep s).
Proof.
  induction s as [|c s IH]; cbn [tokens]; [constructor |].
  destruct (sep c); [exact IH |].
  destruct s as [|d s]; [repeat constructor; discriminate |].
  destruct (sep d); [constructor; [discriminate | exact IH] |].
  destruct (tokens sep (d :: s)) as [|w ws]; [repeat constructor; discriminate |].
  apply Forall_cons in IH as [_ IH]. constructor; [discriminate | exact IH].
Qed.

Lemma tokens_head_word c s : sep c = false -> tokens sep (c :: s) <> [].
Proof.
  intros Hc. cbn [tokens]. rewrite Hc. destruct s as [|d s]; [discriminate |].
  destruct (sep d); [discriminate |]. destruct (tokens sep (d :: s)); discriminate.
Qed.

End Tokens.

Lemma tokens_ext (f g : N -> bool) s :
  Forall (fun c => f c = g c) s -> tokens f s = tokens g s.
Proof.
  induction 1 as [|c s Hc Hs IH]; [reflexivity |].
  cbn [tokens]. rewrite Hc, IH. destruct (g c); [reflexivity |].
  destruct Hs as [|d s Hd _]; [reflexivity |]. rewrite Hd. reflexivity.
Qed.

Lemma join_words_nil (sep : str) (ws : list str) :
  Forall (fun w : str => w <> []) ws -> join sep ws = [] -> ws = [].
Proof.
  intros Hall. destruct Hall as [|w ws Hw _]; [reflexivity |]. simpl.
  destruct ws; intros Hj; [congruence |].
  destruct w; [congruence | discriminate].
Qed.

Lemma drop_while_snoc_keep {A} (f : A -> bool) l c :
  f c = false -> drop_while f (l ++ [c]) = drop_while f l ++ [c].
Proof.
  intros Hc. induction l as [|x l IH]; simpl; [rewrite Hc; reflexivity |].
  destruct (f x); [exact IH | reflexivity].
Qed.

Lemma drop_while_snoc_drop {A} (f : A -> bool) l p :
  f p = true ->
  drop_while f (l ++ [p])
  = match drop_while f l with [] => [] | _ :: _ => drop_while f l ++ [p] end.
Proof.
  intros Hp. induction l as [|x l IH]; simpl; [rewrite Hp; reflexivity |].
  destruct (f x); [exact IH | reflexivity].
Qed.

Lemma rstrip_cons_keep f c s :
  f c = false -> rstrip_by f (c :: s) = c :: rstrip_by f s.
Proof.
  intros Hc. unfold rstrip_by. simpl.
  rewrite drop_while_snoc_keep by exact Hc. rewrite rev_app_distr. reflexivity.
Qed.

Lemma rstrip_cons_drop f p s :
  f p = true ->
  rstrip_by f (p :: s)
  = match rstrip_by f s with [] => [] | _ :: _ => p :: rstrip_by f s end.
Proof.
  intros Hp. unfold rstrip_by. simpl.
  rewrite drop_while_snoc_drop by exact Hp.
  destruct (drop_while f (rev s)) as [|x l] eqn:E; [reflexivity |].
  rewrite rev_app_distr. simpl.
  destruct (rev l ++ [x]) eqn:E'; [destruct (rev l); discriminate |].
  reflexivity.
Qed.

Lemma strip_split s :
  exists k k', s = k ++ strip s ++ k'
    /\ Forall (fun c => is_space c = true) k
    /\ Forall (fun c => is_space c = true) k'.
Proof.
  unfold strip, rstrip_by, lstrip_by.
  destruct (drop_while_split is_space s) as [k [Hk Hks]].
  destruct (drop_while_split is_space (rev (drop_while is_space s)))
    as [k' [Hk' Hks']].
  apply (f_equal (@rev N)) in Hk'. rewrite rev_involutive, rev_app_distr in Hk'.
  exists k, (rev k'). split; [rewrite <- Hk'; exact Hk |].
  split; [exact Hks |]. apply Forall_forall. intros c Hc.
  rewrite Forall_forall in Hks'. apply Hks'.
  apply list_elem_of_In. apply in_rev. apply list_elem_of_In. exact Hc.
Qed.

(** Squeezing the white space of a string and trimming it leaves its words,
    one blank between two. *)
Lemma collapse_spaces_lstrip x :
  lstrip_by is_space (collapse_spaces false x) = collapse_spaces true x.
Proof.
  unfold lstrip_by. destruct x as [|c x]; [reflexivity |]. simpl.
  destruct (is_space c) eqn:Hc; simpl; [| rewrite Hc; reflexivity].
  apply drop_while_id. apply collapse_spaces_shape. reflexivity.
Qed.

Lemma collapse_spaces_tokens x :
  rstrip_by is_space (collapse_spaces true x) = join [32%N] (tokens is_space x).
Proof.
  induction x as [|c x IH]; [reflexivity |].
  cbn [collapse_spaces tokens]. destruct (is_space c) eqn:Hc; [exact IH |].
  rewrite rstrip_cons_keep by exact Hc.
  destruct x as [|d x]; [reflexivity |].
  cbn [collapse_spaces] in *. destruct (is_space d) eqn:Hd.
  - rewrite rstrip_cons_drop by reflexivity. rewrite IH.
    pose proof (tokens_words_nonempty is_space (d :: x)) as Hne.
    destruct (tokens is_space (d :: x)) as [|w ws] eqn:Et; [reflexivity |].
    cbn [join]. apply Forall_cons in Hne as [Hw _].
    destruct ws as [|w' ws].
    + destruct w; [congruence | reflexivity].
    + destruct w; [congruence | reflexivity].
  - rewrite IH. pose proof (tokens_head_word is_space d x Hd) as Hne.
    destruct (tokens is_space (d :: x)) as [|w ws]; [congruence |].
    cbn [join]. destruct ws; reflexivity.
Qed.

Lemma squeeze_tokens x :
  strip (collapse_spaces false x) = join [32%N] (tokens is_space x).
Proof.
  unfold strip. rewrite collapse_spaces_lstrip. apply collapse_spaces_tokens.
Qed.

Lemma tokens_fmap (f h : N -> bool) (g : N -> N) s :
  (forall c, f (g c) = h c) -> (forall c, h c = false -> g c = c) ->
  tokens f (g <$> s) = tokens h s.
Proof.
  intros Hf Hg. induction s as [|c s IH]; [reflexivity |].
  cbn [fmap list_fmap tokens]. change (list_fmap N N g s) with (g <$> s).
  rewrite Hf. destruct (h c) eqn:Hc; [exact IH |]. rewrite (Hg c Hc).
  destruct s as [|d s]; [reflexivity |].
  cbn [fmap list_fmap] in *. rewrite Hf. rewrite IH. reflexivity.
Qed.

Lemma filter_ext_Forall (f g : N -> bool) s :
  Forall (fun c => f c = g c) s ->
  filter (fun c => f c = true) s = filter (fun c => g c = true) s.
Proof.
  induction 1 as [|c s Hc _ IH]; [reflexivity |].
  rewrite !filter_cons, IH.
  destruct (decide (f c = true)), (decide (g c = true)); congruence.
Qed.

Lemma filter_all_false (f : N -> bool) s :
  Forall (fun c => f c = false) s -> filter (fun c => f c = true) s = [].
Proof.
  induction 1 as [|c s Hc _ IH]; [reflexivity |].
  rewrite filter_cons, IH. destruct (decide (f c = true)); congruence.
Qed.

Lemma split_on_Forall (P : N -> Prop) sep s :
  Forall P s -> Forall (Forall P) (split_on sep s).
Proof.
  induction 1 as [|c s Hc _ IH]; [repeat constructor |].
  cbn [split_on]. destruct (c =? sep)%N; [constructor; [constructor | exact IH] |].
  destruct (split_on sep s) as [|w ws]; [repeat constructor; exact Hc |].
  apply Forall_cons in IH as [Hw Hws]. repeat constructor; assumption.
Qed.

Lemma first_piece_Forall (P : N -> Prop) sep s :
  Forall P s -> Forall P (hd [] (split_on sep s)).
Proof.
  intros Hs. pose proof (split_on_Forall P sep s Hs) as Hall.
  destruct (split_on sep s); [constructor | apply Forall_cons in Hall as [Hw _]; exact Hw].
Qed.

Lemma split_on_fmap (g : N -> N) sep (s : str) :
  (forall c, (g c =? sep)%N = (c =? sep)%N) ->
  split_on sep (g <$> s) = (fun w : str => g <$> w) <$> split_on sep s.
Proof.
  intros Hg. induction s as [|c s IH]; [reflexivity |].
  cbn [fmap list_fmap split_on]. change (list_fmap N N g s) with (g <$> s).
  rewrite Hg, IH. destruct (c =? sep)%N; [reflexivity |].
  destruct (split_on sep s); reflexivity.
Qed.

Lemma first_piece_fmap (g : N -> N) sep (s : str) :
  (forall c, (g c =? sep)%N = (c =? sep)%N) ->
  hd [] (split_on sep (g <$> s)) = g <$> hd [] (split_on sep s).
Proof.
  intros Hg. rewrite split_on_fmap by exact Hg.
  destruct (split_on sep s); reflexivity.
Qed.

Lemma drop_while_fmap (f : N -> bool) (g : N -> N) (s : str) :
  (forall c, f (g c) = f c) ->
  drop_while f (g <$> s) = g <$> drop_while f s.
Proof.
  intros Hg. induction s as [|c s IH]; [reflexivity |].
  cbn [fmap list_fmap drop_while]. change (list_fmap N N g s) with (g <$> s).
  rewrite Hg. destruct (f c); [exact IH | reflexivity].
Qed.

Lemma rev_fmap (g : N -> N) (s : str) : rev (g <$> s) = g <$> rev s.
Proof.
  induction s as [|c s IH]; [reflexivity |].
  cbn [fmap list_fmap rev]. change (list_fmap N N g s) with (g <$> s).
  rewrite IH, fmap_app. reflexivity.
Qed.

Lemma strip_fmap (g : N -> N) (s : str) :
  (forall c, is_space (g c) = is_space c) ->
  strip (g <$> s) = g <$> strip s.
Proof.
  intros Hg. unfold strip, rstrip_by, lstrip_by.
  rewrite drop_while_fmap, rev_fmap, drop_while_fmap, rev_fmap by exact Hg.
  reflexivity.
Qed.

Lemma in_table_lower s : in_table s -> in_table (Latin.lower_char <$> s).
Proof.
  unfold in_table. intros Hs. apply Forall_fmap.
  eapply Forall_impl; [exact Hs |]. intros c Hc. apply table_lower_char, Hc.
Qed.

Lemma in_table_base_letter s : in_table s -> in_table (s ≫= base_letter).
Proof.
  unfold in_table. rewrite !Forall_forall. intros Hs d Hd.
  apply list_elem_of_bind in Hd as [c [Hd Hc]].
  pose proof (table_base_letter c (Hs c Hc)) as Hb.
  rewrite forallb_forall in Hb. specialize (Hb d).
  unfold table_char. rewrite Hb; [reflexivity |].
  apply list_elem_of_In, Hd.
Qed.

Lemma spaces_base_letter k :
  in_table k -> Forall (fun c => is_space c = true) k -> k ≫= base_letter = k.
Proof.
  unfold in_table. induction 1 as [|c k Hc _ IH]; [reflexivity |].
  intros Hs. apply Forall_cons in Hs as [Hs Hk].
  cbn [mbind list_bind]. change (list_bind N N base_letter k) with (k ≫= base_letter).
  rewrite (IH Hk). destruct (table_space c Hc Hs) as [_ [-> _]]. reflexivity.
Qed.

Lemma spaces_table_sep k :
  Forall (fun c => is_space c = true) k -> Forall (fun c => table_sep c = true) k.
Proof.
  intros Hk. eapply Forall_impl; [exact Hk |].
  intros c Hc. unfold table_sep. rewrite Hc. apply orb_true_r.
Qed.

Lemma spaces_lower_letters k :
  in_table k -> Forall (fun c => is_space c = true) k ->
  filter (fun c => table_word c = true) (Latin.lower_char <$> k) = [].
Proof.
  intros Ht Hs. apply filter_all_false. apply Forall_fmap.
  unfold in_table in Ht. rewrite Forall_forall in *. intros c Hc.
  destruct (table_space c (Ht c Hc) (Hs c Hc)) as [Hl [_ Hw]].
  simpl. rewrite Hl. exact Hw.
Qed.

Section SameWork.
Context `{Unicode}.

(** [normalize_text] gives the words of the text, cut at every character
    that is white space or not a word character, after lower-casing and
    after the removal of the marks of the decomposition. *)
Lemma normalize_text_tokens t :
  t <> [] ->
  normalize_text (VStr t)
  = join [32%N]
      (tokens text_sep
         (filter (fun c => is_Mn c = false) (nfd (strip (lower t))))).
Proof.
  intros Ht. unfold normalize_text. destruct t as [|c t]; [congruence |].
  cbn [truthy isna negb orb to_str]. cbv zeta.
  rewrite squeeze_tokens. f_equal. apply tokens_fmap.
  - intros d. unfold text_sep.
    destruct (is_word d), (is_space d) eqn:Hd; simpl; try rewrite Hd; reflexivity.
  - intros d. unfold text_sep. destruct (is_word d), (is_space d); simpl;
      intros; congruence.
Qed.

Lemma normalize_text_title_words t :
  agrees_with_table -> in_table t ->
  normalize_text (VStr t) = join [32%N] (title_words t).
Proof.
  intros (Hlow & Hbase & Hword) Ht.
  destruct (decide (t = [])) as [-> | Hne]; [reflexivity |].
  rewrite normalize_text_tokens by exact Hne. f_equal.
  rewrite (Hlow t Ht). unfold title_words.
  pose proof (in_table_lower t Ht) as Hx.
  set (x := Latin.lower_char <$> t) in *.
  destruct (strip_split x) as (k & k' & Ex & Hk & Hk').
  remember (strip x) as sx eqn:Esx. rewrite Ex in Hx |- *.
  unfold in_table in Hx. apply Forall_app in Hx as [Hxk Hx].
  apply Forall_app in Hx as [Hsx Hxk'].
  rewrite (Hbase sx Hsx). rewrite !bind_app.
  rewrite (spaces_base_letter k Hxk Hk), (spaces_base_letter k' Hxk' Hk').
  rewrite tokens_app_sep_l by (apply spaces_table_sep, Hk).
  rewrite tokens_app_sep_r by (apply spaces_table_sep, Hk').
  apply tokens_ext. pose proof (in_table_base_letter sx Hsx) as Hb.
  eapply Forall_impl; [exact Hb |]. intros c Hc. cbv beta in *.
  unfold text_sep, table_sep. rewrite (Hword c Hc). reflexivity.
Qed.

(** [first_author_key] gives the word characters of the first author's
    surname, lower-cased; a mark or an accented letter stays. *)
Lemma first_author_key_surname a :
  agrees_with_table -> in_table a ->
  first_author_key (VStr a) = surname_letters a.
Proof.
  intros (Hlow & _ & Hword) Ha.
  destruct (decide (a = [])) as [-> | Hne]; [reflexivity |].
  unfold first_author_key, surname_letters.
  destruct a as [|c a]; [congruence |]. cbn [truthy to_str]. cbv zeta.
  set (p := hd [] (split_on 44 (hd [] (split_on 59 (c :: a))))).
  assert (Hp : in_table p).
  { apply first_piece_Forall, first_piece_Forall, Ha. }
  destruct (strip_split p) as (k & k' & Ep & Hk & Hk').
  remember (strip p) as sp eqn:Esp. rewrite Ep in Hp |- *.
  unfold in_table in Hp. apply Forall_app in Hp as [Hpk Hp].
  apply Forall_app in Hp as [Hsp Hpk'].
  rewrite (Hlow sp Hsp). rewrite !fmap_app, !filter_app.
  rewrite (spaces_lower_letters k Hpk Hk), (spaces_lower_letters k' Hpk' Hk').
  rewrite app_nil_r. cbn [app]. apply filter_ext_Forall.
  pose proof (in_table_lower sp Hsp) as Hl.
  eapply Forall_impl; [exact Hl |]. intros d Hd. apply Hword, Hd.
Qed.

Section AsciiCase.
Hypothesis lower_ascii_case : forall x y, ascii_case_eq x y -> lower x = lower y.

Lemma normalize_text_ascii_case t1 t2 :
  ascii_case_eq t1 t2 -> normalize_text (VStr t1) = normalize_text (VStr t2).
Proof.
  intros Heq. unfold normalize_text.
  destruct t1 as [|c1 t1], t2 as [|c2 t2]; try discriminate; [reflexivity |].
  cbn [truthy isna negb orb to_str]. cbv zeta.
  rewrite (lower_ascii_case _ _ Heq). reflexivity.
Qed.

Lemma first_author_key_ascii_case a1 a2 :
  ascii_case_eq a1 a2 -> first_author_key (VStr a1) = first_author_key (VStr a2).
Proof.
  intros Heq. unfold first_author_key.
  destruct a1 as [|c1 a1], a2 as [|c2 a2]; try discriminate; [reflexivity |].
  cbn [truthy to_str]. cbv zeta. f_equal. apply lower_ascii_case.
  unfold ascii_case_eq in *.
  rewrite <- !strip_fmap by (intros; apply ascii_lower_char_facts).
  rewrite <- !first_piece_fmap by (intros; apply ascii_lower_char_facts).
  rewrite Heq. reflexivity.
Qed.

Lemma same_title_normalized t1 t2 :
  agrees_with_table -> same_title t1 t2 ->
  normalize_text (VStr t1) = normalize_text (VStr t2).
Proof.
  intros Hag [Heq | (H1 & H2 & Heq)]; [apply normalize_text_ascii_case, Heq |].
  rewrite !normalize_text_title_words by assumption. rewrite Heq. reflexivity.
Qed.

Lemma same_first_author_key a1 a2 :
  agrees_with_table -> same_first_author a1 a2 ->
  first_author_key (VStr a1) = first_author_key (VStr a2).
Proof.
  intros Hag [Heq | (H1 & H2 & Heq)]; [apply first_author_key_ascii_case, Heq |].
  rewrite !first_author_key_surname by assumption. exact Heq.
Qed.

End AsciiCase.

Lemma por_string s : por (VStr s) (VStr []) = VStr s.
Proof. destruct s; reflexivity. Qed.

End SameWork.

(** The character table of the examples agrees with itself. *)
Lemma latin_agrees_with_table : @agrees_with_table Latin.latin.
Proof.
  split; [reflexivity |]. split; [| reflexivity].
  intros s _. simpl. induction s as [|c s IH]; [reflexivity |].
  cbn [mbind list_bind].
  change (list_bind N N Latin.decompose s) with (s ≫= Latin.decompose).
  change (list_bind N N base_letter s) with (s ≫= base_letter).
  rewrite filter_app, IH. reflexivity.
Qed.

Section SameWorkMerged.
Context `{Unicode}.

(** C4 (as amended): two records without DOI are given the same fingerprint,
    and [deduplicate_records] on the two keeps one of them and counts one
    fingerprint duplicate, when the fingerprint is matchable and
    - the titles are the same up to the case of the ASCII letters, or are
      written in Basic Latin, Latin-1 and the combining marks U+0300..U+036F
      and have the same words, where a word is a maximal run of letters,
      digits and underscores, compared without letter case and without
      diacritics (so punctuation and white space count only as separators);
    - the authors are the same up to the case of the ASCII letters, or are
      written in the same range and the text before the first semicolon and
      comma has the same letters, digits and underscores without letter
      case (punctuation and white space dropped, diacritics kept);
    - the years agree on their first four characters.
    The run time is assumed to lower-case as the table does on that range,
    to decompose its letters as the table does, to class its characters as
    the table does, and to give one lower-case form to strings that differ
    in ASCII case. *)
Theorem same_work_merged (r1 r2 : record) (t1 t2 a1 a2 y1 y2 : str) :
  (forall x y, ascii_case_eq x y -> lower x = lower y) ->
  agrees_with_table ->
  record_doi r1 = [] -> record_doi r2 = [] ->
  get r1 "title" (VStr []) = VStr t1 -> get r2 "title" (VStr []) = VStr t2 ->
  get r1 "authors" (VStr []) = VStr a1 -> get r2 "authors" (VStr []) = VStr a2 ->
  get r1 "year" (VStr []) = VStr y1 -> get r2 "year" (VStr []) = VStr y2 ->
  same_title t1 t2 ->
  same_first_author a1 a2 ->
  take 4 y1 = take 4 y2 ->
  matchable (create_fingerprint r1) = true ->
  create_fingerprint r1 = create_fingerprint r2
  /\ deduplicate_records [r1; r2]
     = if (score r2 <? score r1)%nat
       then ([r1], 0, 1, [(py "Fingerprint", source_db r2)])%nat
       else ([r2], 0, 1, [(py "Fingerprint", source_db r1)])%nat.
Proof.
  intros Hcase Hag Hd1 Hd2 Ht1 Ht2 Ha1 Ha2 Hy1 Hy2 Ht Ha Hy Hm.
  apply same_fingerprint_merged; try assumption.
  - rewrite Ht1, Ht2. apply same_title_normalized; assumption.
  - rewrite Ha1, Ha2, !por_string. apply same_first_author_key; assumption.
  - rewrite Hy1, Hy2, !por_string. exact Hy.
Qed.

End SameWorkMerged.

Lemma same_work_merged_witness :
  @create_fingerprint Latin.latin Sample.cafe_a
  = @create_fingerprint Latin.latin Sample.cafe_b
  /\ @deduplicate_records Latin.latin [Sample.cafe_a; Sample.cafe_b]
     = ([Sample.cafe_b], 0, 1,
        [(py "Fingerprint", source_db Sample.cafe_a)])%nat.
Proof.
  apply (@same_work_merged Latin.latin Sample.cafe_a Sample.cafe_b
           (py "Caf" ++ [233%N] ++ py " Study: a Review")
           (py "CAFE study a review")
           (py "SMITH, J") (py "Smith, J.") (py "2020") (py "2020a")).
  - exact latin_lower_ascii_case.
  - exact latin_agrees_with_table.
  - vm_compute; reflexivity.
  - vm_compute; reflexivity.
  - vm_compute; reflexivity.
  - vm_compute; reflexivity.
  - vm_compute; reflexivity.
  - vm_compute; reflexivity.
  - vm_compute; reflexivity.
  - vm_compute; reflexivity.
  - right. split; [apply (bool_decide_unpack _); vm_compute; exact I |].
    split; [apply (bool_decide_unpack _); vm_compute; exact I |].
    vm_compute; reflexivity.
  - right. split; [apply (bool_decide_unpack _); vm_compute; exact I |].
    split; [apply (bool_decide_unpack _); vm_compute; exact I |].
    vm_compute; reflexivity.
  - vm_compute; reflexivity.
  - vm_compute; reflexivity.
Defined.

(** C4, counterexample: three pairs of exports of one work, none with a DOI
    and each with a matchable fingerprint.  The authors differ only in a
    diaeresis (U+00FC and u); the titles differ only in a hyphen inside a
    word; the years differ only in brackets.  In each pair the fingerprints
    differ and [deduplicate_records] keeps both records. *)
Lemma spelling_variants_not_merged :
  (@record_doi Latin.latin Sample.muller_a = []
   /\ @record_doi Latin.latin Sample.muller_b = []
   /\ matchable (@create_fingerprint Latin.latin Sample.muller_a) = true
   /\ @create_fingerprint Latin.latin Sample.muller_a
      <> @create_fingerprint Latin.latin Sample.muller_b
   /\ @deduplicate_records Latin.latin [Sample.muller_a; Sample.muller_b]
      = ([Sample.muller_b; Sample.muller_a], 0, 0, [])%nat)
  /\ (@record_doi Latin.latin FoldSample.covid_hyphen = []
      /\ @record_doi Latin.latin FoldSample.covid_plain = []
      /\ matchable (@create_fingerprint Latin.latin FoldSample.covid_hyphen) = true
      /\ @create_fingerprint Latin.latin FoldSample.covid_hyphen
         <> @create_fingerprint Latin.latin FoldSample.covid_plain
      /\ @deduplicate_records Latin.latin
           [FoldSample.covid_hyphen; FoldSample.covid_plain]
         = ([FoldSample.covid_plain; FoldSample.covid_hyphen], 0, 0, [])%nat)
  /\ (@record_doi Latin.latin FoldSample.year_plain = []
      /\ @record_doi Latin.latin FoldSample.year_bracketed = []
      /\ matchable (@create_fingerprint Latin.latin FoldSample.year_plain) = true
      /\ @create_fingerprint Latin.latin FoldSample.year_plain
         <> @create_fingerprint Latin.latin FoldSample.year_bracketed
      /\ @deduplicate_records Latin.latin
           [FoldSample.year_plain; FoldSample.year_bracketed]
         = ([FoldSample.year_bracketed; FoldSample.year_plain], 0, 0, [])%nat).
Proof.
  repeat split; try (vm_compute; reflexivity); vm_compute; discriminate.
Qed.
